(** * Tamil diacritic converter: the transliteration core

    A shallow embedding of the conversion core of [tamil_diacritic_app.py]
    (the tables, [replace_preserve_case], [apply_roman_mappings],
    [build_consonant_map], [is_tamil_char], [tamil_to_diacritic_roman],
    [apply_custom_mappings] and the conversion step of [convert_now]),
    followed by the properties of the specification that concern it.

    A Python [str] is a sequence of Unicode code points: a list of [N].
    A one-character string is a one-element list, the empty string is [[]].
    The dictionaries of the program are keyed by strings and hold strings:
    they are finite maps from [str] to [str]. *)

From stdpp Require Import base option list gmap sorting.

#[local] Open Scope N_scope.
#[local] Open Scope nat_scope.

(** ** Strings *)

Abbreviation codepoint := N.
Abbreviation str := (list N).
Abbreviation dict := (gmap (list N) (list N)).

(** A dictionary display [{k1: v1, k2: v2, ...}]: the entries are stored
    from left to right, a later entry for the same key replaces an earlier
    one. *)
Definition dict_display (entries : list (str * str)) : dict :=
  foldl (λ d kv, <[kv.1 := kv.2]> d) ∅ entries.

(** [k in d] *)
Definition contains (d : dict) (k : str) : bool :=
  match d !! k with Some _ => true | None => false end.

(** ** Outcomes of a computation that may raise

    Subscripting a dictionary with a missing key raises [KeyError], indexing
    a string out of range raises [IndexError].  [OutOfFuel] is the outcome of
    a loop of the model that was not given enough iterations; it stands for
    no behaviour of the program. *)

Inductive exn : Type := KeyError | IndexError.

Inductive result (A : Type) : Type :=
| Ok (a : A)
| Raise (e : exn)
| OutOfFuel.
Arguments Ok {A} a.
Arguments Raise {A} e.
Arguments OutOfFuel {A}.

#[global] Instance result_ret : MRet result := λ A a, Ok a.
#[global] Instance result_bind : MBind result := λ A B f m,
  match m with
  | Ok a => f a
  | Raise e => Raise e
  | OutOfFuel => OutOfFuel
  end.

(** [d[k]] *)
Definition getitem (d : dict) (k : str) : result str :=
  match d !! k with Some v => Ok v | None => Raise KeyError end.

(** [text[i]] for a non-negative [i]: a one-character string *)
Definition char_at (text : str) (i : nat) : result str :=
  match text !! i with Some c => Ok [c] | None => Raise IndexError end.

(** ** Transliteration data *)

Definition TAMIL_INDEPENDENT_VOWELS : dict := dict_display
  [ ([0x0B85%N], [0x61%N]);            (* a *)
    ([0x0B86%N], [0x0101%N]);          (* a with macron *)
    ([0x0B87%N], [0x69%N]);            (* i *)
    ([0x0B88%N], [0x012B%N]);          (* i with macron *)
    ([0x0B89%N], [0x75%N]);            (* u *)
    ([0x0B8A%N], [0x016B%N]);          (* u with macron *)
    ([0x0B8E%N], [0x65%N]);            (* e *)
    ([0x0B8F%N], [0x0113%N]);          (* e with macron *)
    ([0x0B90%N], [0x61%N; 0x69%N]);    (* ai *)
    ([0x0B92%N], [0x6F%N]);            (* o *)
    ([0x0B93%N], [0x014D%N]);          (* o with macron *)
    ([0x0B94%N], [0x61%N; 0x75%N]) ].  (* au *)

Definition TAMIL_VOWEL_SIGNS : dict := dict_display
  [ ([0x0BBE%N], [0x0101%N]);
    ([0x0BBF%N], [0x69%N]);
    ([0x0BC0%N], [0x012B%N]);
    ([0x0BC1%N], [0x75%N]);
    ([0x0BC2%N], [0x016B%N]);
    ([0x0BC6%N], [0x65%N]);
    ([0x0BC7%N], [0x0113%N]);
    ([0x0BC8%N], [0x61%N; 0x69%N]);
    ([0x0BCA%N], [0x6F%N]);
    ([0x0BCB%N], [0x014D%N]);
    ([0x0BCC%N], [0x61%N; 0x75%N]) ].

Definition TAMIL_VIRAMA : str := [0x0BCD%N].
Definition TAMIL_ANUSVARA : str := [0x0B82%N].
Definition TAMIL_AAYTHAM : str := [0x0B83%N].

(** danda and double danda become a full stop, the zero-width non-joiner and
    joiner are deleted *)
Definition PUNCT_MAP : dict := dict_display
  [ ([0x0964%N], [0x2E%N]);
    ([0x0965%N], [0x2E%N]);
    ([0x200C%N], []);
    ([0x200D%N], []) ].

Definition TAMIL_CONSONANTS_CORE : dict := dict_display
  [ ([0x0B95%N], [0x6B%N]);            (* k *)
    ([0x0B99%N], [0x1E45%N]);          (* n with dot above *)
    ([0x0B9A%N], [0x63%N]);            (* c *)
    ([0x0B9E%N], [0xF1%N]);            (* n with tilde *)
    ([0x0B9F%N], [0x1E6D%N]);          (* t with dot below *)
    ([0x0BA3%N], [0x1E47%N]);          (* n with dot below *)
    ([0x0BA4%N], [0x74%N]);            (* t *)
    ([0x0BA8%N], [0x6E%N]);            (* n *)
    ([0x0BA9%N], [0x1E49%N]);          (* n with line below *)
    ([0x0BAA%N], [0x70%N]);            (* p *)
    ([0x0BAE%N], [0x6D%N]);            (* m *)
    ([0x0BAF%N], [0x79%N]);            (* y *)
    ([0x0BB0%N], [0x72%N]);            (* r *)
    ([0x0BB1%N], [0x1E5F%N]);          (* r with line below *)
    ([0x0BB2%N], [0x6C%N]);            (* l *)
    ([0x0BB3%N], [0x1E37%N]);          (* l with dot below *)
    ([0x0BB4%N], [0x1E3B%N]);          (* l with line below *)
    ([0x0BB5%N], [0x76%N]) ].          (* v *)

(** a mapping: the pattern and its replacement *)
Abbreviation rule := (list N * list N)%type.

Definition ROMAN_MAPPINGS : list rule :=
  [ ([0x61%N; 0x61%N], [0x0101%N]);    (* aa *)
    ([0x69%N; 0x69%N], [0x012B%N]);    (* ii *)
    ([0x75%N; 0x75%N], [0x016B%N]);    (* uu *)
    ([0x65%N; 0x65%N], [0x0113%N]);    (* ee *)
    ([0x6F%N; 0x6F%N], [0x014D%N]);    (* oo *)
    ([0x7A%N; 0x68%N], [0x1E3B%N]);    (* zh *)
    ([0x6E%N; 0x67%N], [0x1E45%N]);    (* ng *)
    ([0x6E%N; 0x2E%N], [0x1E47%N]);    (* n. *)
    ([0x74%N; 0x2E%N], [0x1E6D%N]);    (* t. *)
    ([0x6C%N; 0x2E%N], [0x1E37%N]);    (* l. *)
    ([0x72%N; 0x2E%N], [0x1E5B%N]);    (* r. *)
    ([0x6D%N; 0x2E%N], [0x1E43%N]);    (* m. *)
    ([0x73%N; 0x68%N], [0x015B%N]);    (* sh *)
    ([0x63%N; 0x68%N], [0x63%N; 0x68%N]) ].  (* ch *)

(** ** The consonant map of a conversion *)

Definition build_consonant_map (use_sanskrit : bool) : dict :=
  let cmap := TAMIL_CONSONANTS_CORE in
  if use_sanskrit then
    <[ [0x0BB6%N] := [0x015B%N] ]>
      (<[ [0x0BB9%N] := [0x68%N] ]>
        (<[ [0x0BB8%N] := [0x73%N] ]>
          (<[ [0x0BB7%N] := [0x1E63%N] ]>
            (<[ [0x0B9C%N] := [0x6A%N] ]> cmap))))
  else
    <[ [0x0BB6%N] := [0x73%N] ]>
      (<[ [0x0BB9%N] := [0x68%N] ]>
        (<[ [0x0BB8%N] := [0x73%N] ]>
          (<[ [0x0BB7%N] := [0x73%N; 0x68%N] ]>
            (<[ [0x0B9C%N] := [0x6A%N] ]> cmap)))).

(** ** The Tamil block *)

(** [a <= b] on strings: the code points are compared from the left, the
    first difference decides, and a proper prefix is the smaller. *)
Fixpoint str_le (a b : str) : bool :=
  match a, b with
  | [], _ => true
  | _ :: _, [] => false
  | x :: a', y :: b' =>
    if (x <? y)%N then true else if (y <? x)%N then false else str_le a' b'
  end.

Definition is_tamil_char (ch : str) : bool :=
  str_le [0x0B80%N] ch && str_le ch [0x0BFF%N].

(** ** Script to romanization *)

(** The [while i < n] loop of [tamil_to_diacritic_roman]: the state is the
    index [i] and the list [out] of the pieces appended so far.  Every
    iteration moves [i] forward, [fuel] bounds the number of tests of the
    loop condition. *)
Fixpoint scan (fuel : nat) (TAMIL_CONSONANTS : dict) (text : str)
    (i : nat) (out : list str) : result (list str) :=
  match fuel with
  | O => OutOfFuel
  | S fuel =>
    let n := length text in
    if bool_decide (i < n) then
      ch ← char_at text i;
      if contains PUNCT_MAP ch then
        v ← getitem PUNCT_MAP ch;
        scan fuel TAMIL_CONSONANTS text (i + 1) (out ++ [v])
      else if bool_decide (ch = TAMIL_ANUSVARA) then
        scan fuel TAMIL_CONSONANTS text (i + 1) (out ++ [[0x1E43%N]])
      else if bool_decide (ch = TAMIL_AAYTHAM) then
        scan fuel TAMIL_CONSONANTS text (i + 1) (out ++ [[0x1E25%N]])
      else if contains TAMIL_INDEPENDENT_VOWELS ch then
        v ← getitem TAMIL_INDEPENDENT_VOWELS ch;
        scan fuel TAMIL_CONSONANTS text (i + 1) (out ++ [v])
      else if contains TAMIL_CONSONANTS ch then
        base ← getitem TAMIL_CONSONANTS ch;
        nxt ← (if bool_decide (i + 1 < n) then char_at text (i + 1) else Ok []);
        if bool_decide (nxt = TAMIL_VIRAMA) then
          scan fuel TAMIL_CONSONANTS text (i + 2) (out ++ [base])
        else if contains TAMIL_VOWEL_SIGNS nxt then
          v ← getitem TAMIL_VOWEL_SIGNS nxt;
          scan fuel TAMIL_CONSONANTS text (i + 2) (out ++ [base ++ v])
        else
          scan fuel TAMIL_CONSONANTS text (i + 1) (out ++ [base ++ [0x61%N]])
      else
        scan fuel TAMIL_CONSONANTS text (i + 1) (out ++ [ch])
    else Ok out
  end.

(** [''.join(out)] *)
Definition join (out : list str) : str := concat out.

Definition tamil_to_diacritic_roman (text : str) (use_sanskrit : bool) : result str :=
  let TAMIL_CONSONANTS := build_consonant_map use_sanskrit in
  out ← scan (S (length text)) TAMIL_CONSONANTS text 0 [];
  Ok (join out).

(** ** String replacement *)

(** [old in s]: [old] occurs in [s] as a substring *)
Fixpoint isin (old s : str) : bool :=
  bool_decide (old `prefix_of` s) ||
  match s with
  | [] => false
  | _ :: s' => isin old s'
  end.

(** The scan of [s.replace(old, new)] for a non-empty [old], from left to
    right: [skip] is the number of characters of the occurrence found last
    that are still to be passed over, so occurrences are replaced without
    overlap, the leftmost first. *)
Fixpoint replace_from (skip : nat) (s old new : str) : str :=
  match s with
  | [] => []
  | c :: s' =>
    match skip with
    | S k => replace_from k s' old new
    | O =>
      if bool_decide (old `prefix_of` s)
      then new ++ replace_from (length old - 1) s' old new
      else c :: replace_from 0 s' old new
    end
  end.

(** [s.replace(old, new)]. An empty [old] occurs before every character and
    at the end of [s]. *)
Definition replace (s old new : str) : str :=
  match old with
  | [] => concat (map (λ c, new ++ [c]) s) ++ new
  | _ :: _ => replace_from 0 s old new
  end.

(** ** The character database

    [str.isalpha], [str.upper] and [str.capitalize] read the Unicode
    character database of the interpreter, which is no part of the program:
    the substitution engine is parametrised by them. Of the database the
    proofs use one fact: no character has an empty upper-case or title-case
    form, so the two conversions keep a non-empty string non-empty. *)
Class Unicode : Type := {
  isalpha : codepoint → bool;   (* [ch.isalpha()] for a one-character [ch] *)
  upper : str → str;            (* [s.upper()] *)
  capitalize : str → str;       (* [s.capitalize()] *)
  upper_nonempty (s : str) : s ≠ [] → upper s ≠ [];
  capitalize_nonempty (s : str) : s ≠ [] → capitalize s ≠ []
}.

(** ** Sorting

    [sorted(l, key=key)]: ascending in [key], and stable. The element put in
    goes before the first element whose key is not smaller, so before the
    elements of the same key that followed it in [l]. *)
Section sorted.
Context {A : Type} (key : A → Z).

Fixpoint insert_by (x : A) (l : list A) : list A :=
  match l with
  | [] => [x]
  | y :: l' =>
    if bool_decide (key x ≤ key y)%Z then x :: y :: l' else y :: insert_by x l'
  end.

Definition sorted (l : list A) : list A := foldr insert_by [] l.
End sorted.

(** [lambda x: -len(x[0])] *)
Definition neg_len (x : rule) : Z := (- Z.of_nat (length x.1))%Z.

(** ** The pattern substitution engine *)
Section engine.
Context `{Unicode}.

(** [''.join(ch.upper() if ch.isalpha() else ch for ch in tgt)] *)
Definition upper_alpha (tgt : str) : str :=
  join (map (λ ch, if isalpha ch then upper [ch] else [ch]) tgt).

Definition replace_preserve_case (s src tgt : str) : str :=
  let out := replace s src tgt in
  match src with
  | [] => out
  | c0 :: _ =>
    if isalpha c0 then
      let out := replace out (capitalize src) (capitalize tgt) in
      replace out (upper src) (upper_alpha tgt)
    else out
  end.

(** The body of [apply_roman_mappings], with the table it reads as an
    argument: the specification's [substitute]. *)
Definition substitute (text : str) (mappings : list rule) : str :=
  foldl (λ out '(src, tgt), replace_preserve_case out src tgt)
        text (sorted neg_len mappings).

Definition apply_roman_mappings (text : str) : str :=
  substitute text ROMAN_MAPPINGS.
End engine.

Definition apply_custom_mappings (text : str) (rules : list rule) : str :=
  foldl (λ out '(s, t), replace out s t) text (sorted neg_len rules).

(** ** Conversion

    The conversion step of [convert_now]: the input mode selects the first
    pass, the custom rules, when there are any, are applied to its result. *)
Inductive input_mode : Type := Tamil | Roman.

Definition convert `{Unicode} (src : str) (mode : input_mode)
    (use_sanskrit : bool) (custom_rules : list rule) : result str :=
  converted ←
    match mode with
    | Roman => Ok (apply_roman_mappings src)
    | Tamil => tamil_to_diacritic_roman src use_sanskrit
    end;
  match custom_rules with
  | [] => Ok converted
  | _ :: _ => Ok (apply_custom_mappings converted custom_rules)
  end.

(** ** A fragment of the character database

    The letters of the romanization and of its ASCII input: the basic Latin
    letters, and the blocks U+0100..U+012F, U+014A..U+0177 and
    U+1E00..U+1E95, where every even code point is an upper-case letter and
    the next one its lower-case form. Code points outside the fragment are
    handled as caseless and non-alphabetic, which is what they are for the
    digits, the punctuation and the spaces of ASCII; the table is used on
    strings of the fragment and of those only. *)
Module Latin.
Definition between (lo hi c : N) : bool := ((lo <=? c) && (c <=? hi))%N.

Definition paired (c : N) : bool :=
  between 0x0100 0x012F c || between 0x014A 0x0177 c || between 0x1E00 0x1E95 c.

Definition is_alpha (c : codepoint) : bool :=
  between 0x41 0x5A c || between 0x61 0x7A c || paired c.

Definition to_upper (c : codepoint) : codepoint :=
  if between 0x61 0x7A c then (c - 0x20)%N
  else if paired c && N.odd c then (c - 1)%N
  else c.

Definition to_lower (c : codepoint) : codepoint :=
  if between 0x41 0x5A c then (c + 0x20)%N
  else if paired c && N.even c then (c + 1)%N
  else c.

(** first character to upper case, the others to lower case *)
Definition cap (s : str) : str :=
  match s with
  | [] => []
  | c :: s' => to_upper c :: map to_lower s'
  end.

Definition table : Unicode :=
  {| isalpha := is_alpha; upper := map to_upper; capitalize := cap;
     upper_nonempty := ltac:(by intros []);
     capitalize_nonempty := ltac:(by intros []) |}.
End Latin.

(** ** Vocabulary of the properties *)

(** The pieces that the loop appends for the part of the text that starts at
    the index of the loop, by recursion on that part. *)
Fixpoint pieces (cmap : dict) (text : str) : list str :=
  match text with
  | [] => []
  | c :: rest =>
    if contains PUNCT_MAP [c] then default [] (PUNCT_MAP !! [c]) :: pieces cmap rest
    else if bool_decide ([c] = TAMIL_ANUSVARA) then [0x1E43%N] :: pieces cmap rest
    else if bool_decide ([c] = TAMIL_AAYTHAM) then [0x1E25%N] :: pieces cmap rest
    else if contains TAMIL_INDEPENDENT_VOWELS [c]
      then default [] (TAMIL_INDEPENDENT_VOWELS !! [c]) :: pieces cmap rest
    else if contains cmap [c] then
      let base := default [] (cmap !! [c]) in
      match rest with
      | [] => [base ++ [0x61%N]]
      | c' :: rest' =>
        if bool_decide ([c'] = TAMIL_VIRAMA) then base :: pieces cmap rest'
        else if contains TAMIL_VOWEL_SIGNS [c']
          then (base ++ default [] (TAMIL_VOWEL_SIGNS !! [c'])) :: pieces cmap rest'
        else (base ++ [0x61%N]) :: pieces cmap rest
      end
    else [c] :: pieces cmap rest
  end.

(** A character that one of the tables classifies: punctuation, anusvara,
    aytham, independent vowel, consonant of the mode, vowel sign or virama. *)
Definition classified (use_sanskrit : bool) (c : codepoint) : bool :=
  contains PUNCT_MAP [c]
  || bool_decide ([c] = TAMIL_ANUSVARA)
  || bool_decide ([c] = TAMIL_AAYTHAM)
  || contains TAMIL_INDEPENDENT_VOWELS [c]
  || contains (build_consonant_map use_sanskrit) [c]
  || contains TAMIL_VOWEL_SIGNS [c]
  || bool_decide ([c] = TAMIL_VIRAMA).

(** A virama or a vowel sign *)
Definition is_mark (c : codepoint) : bool :=
  bool_decide ([c] = TAMIL_VIRAMA) || contains TAMIL_VOWEL_SIGNS [c].

(** The text ends with no consonant of the map. *)
Definition no_consonant_at_end (cmap : dict) (text : str) : Prop :=
  match last text with
  | Some c => contains cmap [c] = false
  | None => True
  end.

(** The two consonants that the modes romanize differently *)
Definition TAMIL_SSA : str := [0x0BB7%N].
Definition TAMIL_SHA : str := [0x0BB6%N].

(** A character that the scan rewrites when it comes to it: punctuation,
    anusvara, aytham, independent vowel or consonant of the mode. *)
Definition convertible (use_sanskrit : bool) (c : codepoint) : bool :=
  contains PUNCT_MAP [c]
  || bool_decide ([c] = TAMIL_ANUSVARA)
  || bool_decide ([c] = TAMIL_AAYTHAM)
  || contains TAMIL_INDEPENDENT_VOWELS [c]
  || contains (build_consonant_map use_sanskrit) [c].

(** One iteration of the loop at the character [c] followed by [rest]: the
    piece appended, and the part of the text left for the iterations to
    come. *)
Definition head_piece (cmap : dict) (c : codepoint) (rest : str) : str * str :=
  if contains PUNCT_MAP [c] then (default [] (PUNCT_MAP !! [c]), rest)
  else if bool_decide ([c] = TAMIL_ANUSVARA) then ([0x1E43%N], rest)
  else if bool_decide ([c] = TAMIL_AAYTHAM) then ([0x1E25%N], rest)
  else if contains TAMIL_INDEPENDENT_VOWELS [c]
    then (default [] (TAMIL_INDEPENDENT_VOWELS !! [c]), rest)
  else if contains cmap [c] then
    let base := default [] (cmap !! [c]) in
    match rest with
    | [] => (base ++ [0x61%N], [])
    | c' :: rest' =>
      if bool_decide ([c'] = TAMIL_VIRAMA) then (base, rest')
      else if contains TAMIL_VOWEL_SIGNS [c']
        then (base ++ default [] (TAMIL_VOWEL_SIGNS !! [c']), rest')
      else (base ++ [0x61%N], rest)
    end
  else ([c], rest).

(** The tests of the loop on the character [ch], in their order, and the two
    tests on the character after a consonant. *)
Definition classification_tests (use_sanskrit : bool) (ch : str) : list bool :=
  [ contains PUNCT_MAP ch;
    bool_decide (ch = TAMIL_ANUSVARA);
    bool_decide (ch = TAMIL_AAYTHAM);
    contains TAMIL_INDEPENDENT_VOWELS ch;
    contains (build_consonant_map use_sanskrit) ch;
    bool_decide (ch = TAMIL_VIRAMA);
    contains TAMIL_VOWEL_SIGNS ch ].

(** The number of tests that hold *)
Definition count_true (tests : list bool) : nat :=
  length (List.filter id tests).

(** No character of the string is convertible. *)
Definition clean (use_sanskrit : bool) (s : str) : bool :=
  forallb (λ c, negb (convertible use_sanskrit c)) s.

(** The text does not begin with a virama or a vowel sign. *)
Definition no_mark_at_start (text : str) : Prop :=
  match text with
  | [] => True
  | c :: _ => is_mark c = false
  end.

(** The five consonants that [build_consonant_map] sets for the mode *)
Definition GRANTHA : list str :=
  [ [0x0B9C%N]; [0x0BB7%N]; [0x0BB8%N]; [0x0BB9%N]; [0x0BB6%N] ].

(** The literal replacements that one call of [replace_preserve_case] makes,
    in their order: the exact one, and behind the test of the first
    character the Title one and the all-caps one. *)
Definition case_passes `{Unicode} (r : rule) : list rule :=
  match r.1 with
  | [] => [r]
  | c0 :: _ =>
    if isalpha c0
    then [r; (capitalize r.1, capitalize r.2); (upper r.1, upper_alpha r.2)]
    else [r]
  end.

(** The literal replacements of [apply_roman_mappings], with the case forms
    that the interpreter gives the strings of [ROMAN_MAPPINGS]. *)
Definition roman_passes : list rule :=
  concat (map (@case_passes Latin.table) (sorted neg_len ROMAN_MAPPINGS)).

(** An ASCII character. The patterns of [ROMAN_MAPPINGS] are ASCII in all
    their case forms, the replacements, but for "ch", have no ASCII
    character. *)
Definition ascii (c : codepoint) : bool := (c <? 0x80)%N.



(** A basic Latin letter *)
Definition ascii_letter (c : codepoint) : bool :=
  Latin.between 0x41 0x5A c || Latin.between 0x61 0x7A c.

(** A literal replacement that changes nothing, or that puts characters
    outside ASCII in the place of an ASCII pattern. *)
Definition pass_ok (p : rule) : bool :=
  bool_decide (p.1 = p.2)
  || (negb (bool_decide (p.1 = [])) && negb (bool_decide (p.2 = []))
      && forallb ascii p.1 && forallb (λ c, negb (ascii c)) p.2).

(** * Properties *)

(** ** The scenarios of the specification *)

(** KA with the vowel sign AA is "ka" with a macron on the a *)
Example scenario_kaa :
  tamil_to_diacritic_roman [0x0B95%N; 0x0BBE%N] true = Ok [0x6B%N; 0x0101%N].
Proof. by vm_compute. Qed.

(** NA with the virama is a bare "n" *)
Example scenario_bare_n :
  tamil_to_diacritic_roman [0x0BA8%N; 0x0BCD%N] true = Ok [0x6E%N].
Proof. by vm_compute. Qed.

(** "n." is the retroflex n *)
Example scenario_retroflex :
  @apply_roman_mappings Latin.table [0x6E%N; 0x2E%N] = [0x1E47%N].
Proof. by vm_compute. Qed.

(** "Aaram", "AARAM" and "baa" under the built-in rules *)
Example scenario_case :
  @apply_roman_mappings Latin.table [0x41%N; 0x61%N; 0x72%N; 0x61%N; 0x6D%N] =
    [0x0100%N; 0x72%N; 0x61%N; 0x6D%N] ∧
  @apply_roman_mappings Latin.table [0x41%N; 0x41%N; 0x52%N; 0x41%N; 0x4D%N] =
    [0x0100%N; 0x52%N; 0x41%N; 0x4D%N] ∧
  @apply_roman_mappings Latin.table [0x62%N; 0x61%N; 0x61%N] = [0x62%N; 0x0101%N].
Proof. repeat split; by vm_compute. Qed.

(** The built-in patterns are all of length two: sorting keeps their order. *)
Example sorted_roman_mappings : sorted neg_len ROMAN_MAPPINGS = ROMAN_MAPPINGS.
Proof. by vm_compute. Qed.

(** ** The scan of [tamil_to_diacritic_roman] *)

Lemma getitem_contains (d : dict) (k : str) :
  contains d k = true → getitem d k = Ok (default [] (d !! k)).
Proof. unfold contains, getitem. by destruct (d !! k). Qed.

Lemma vowel_signs_empty_key : contains TAMIL_VOWEL_SIGNS [] = false.
Proof. by vm_compute. Qed.

Lemma drop_lookup_cons (text : str) (i : nat) (c : codepoint) :
  text !! i = Some c → drop i text = c :: drop (S i) text.
Proof. intros Hc. by rewrite (drop_S _ _ _ Hc). Qed.

Lemma scan_pieces (cmap : dict) (text : str) (fuel i : nat) (out : list str) :
  i ≤ length text → length text - i < fuel →
  scan fuel cmap text i out = Ok (out ++ pieces cmap (drop i text)).
Proof.
  revert i out. induction fuel as [|fuel IH]; intros i out Hi Hfuel; [lia|].
  cbn [scan]. case_bool_decide as Hlt.
  - destruct (lookup_lt_is_Some_2 text i Hlt) as [c Hc].
    rewrite (drop_lookup_cons _ _ _ Hc).
    unfold char_at. rewrite Hc. cbn [mbind result_bind pieces].
    assert (Hstep : ∀ p, scan fuel cmap text (i + 1) (out ++ [p]) =
                         Ok (out ++ p :: pieces cmap (drop (S i) text))).
    { intros p. rewrite IH by lia. by rewrite Nat.add_1_r, <- app_assoc. }
    destruct (contains PUNCT_MAP [c]) eqn:Hp.
    { rewrite (getitem_contains _ _ Hp). cbn [mbind result_bind]. apply Hstep. }
    case_bool_decide; [apply Hstep|].
    case_bool_decide; [apply Hstep|].
    destruct (contains TAMIL_INDEPENDENT_VOWELS [c]) eqn:Hv.
    { rewrite (getitem_contains _ _ Hv). cbn [mbind result_bind]. apply Hstep. }
    destruct (contains cmap [c]) eqn:Hk; [|apply Hstep].
    rewrite (getitem_contains _ _ Hk). cbn [mbind result_bind].
    case_bool_decide as Hlt'.
    + destruct (lookup_lt_is_Some_2 text (i + 1) Hlt') as [c' Hc'].
      rewrite Hc'. cbn [mbind result_bind].
      rewrite Nat.add_1_r in Hc'. rewrite (drop_lookup_cons _ _ _ Hc').
      assert (Hstep2 : ∀ p, scan fuel cmap text (i + 2) (out ++ [p]) =
                            Ok (out ++ p :: pieces cmap (drop (S (S i)) text))).
      { intros p. rewrite IH by lia.
        by replace (i + 2) with (S (S i)) by lia; rewrite <- app_assoc. }
      case_bool_decide; [apply Hstep2|].
      destruct (contains TAMIL_VOWEL_SIGNS [c']) eqn:Hs.
      * rewrite (getitem_contains _ _ Hs). cbn [mbind result_bind]. apply Hstep2.
      * rewrite Hstep. by rewrite (drop_lookup_cons _ _ _ Hc').
    + cbn [mbind result_bind].
      rewrite bool_decide_eq_false_2 by done.
      rewrite vowel_signs_empty_key, Hstep.
      by rewrite (drop_ge text (S i)) by lia.
  - by rewrite drop_ge, app_nil_r by lia.
Qed.

(** [tamil_to_diacritic_roman] returns, for every text: no subscript and no
    index of the loop is out of range. *)
Lemma tamil_to_diacritic_roman_pieces (text : str) (use_sanskrit : bool) :
  tamil_to_diacritic_roman text use_sanskrit =
  Ok (join (pieces (build_consonant_map use_sanskrit) text)).
Proof.
  unfold tamil_to_diacritic_roman. cbn zeta.
  rewrite scan_pieces by lia. cbn [mbind result_bind]. by rewrite drop_0.
Qed.

(** ** Enumeration of the tables *)

Lemma lookup_elem_of (d : dict) (l : list (str * str)) (k v : str) :
  map_to_list d = l → d !! k = Some v → (k, v) ∈ l.
Proof. intros <- Hk. by apply elem_of_map_to_list. Qed.

(** A hypothesis [d !! k = Some v] on a table [d] of the program is split
    into one goal for each entry of [d]. *)
Ltac entries H :=
  match type of H with
  | ?d !! ?k = Some ?v =>
    let l := eval vm_compute in (map_to_list d) in
    apply (lookup_elem_of d l k v) in H; [|vm_compute; reflexivity];
    repeat (apply elem_of_cons in H as [H|H]; [injection H as -> ->|]);
    try (by apply elem_of_nil in H)
  end.

Lemma contains_lookup (d : dict) (k : str) :
  contains d k = true → ∃ v, d !! k = Some v.
Proof. unfold contains. destruct (d !! k) as [v|]; [by exists v|done]. Qed.

(** ** Syllable composition *)

(** C1: for every consonant [C] with romanization [B] in the consonant map
    of the mode, composing [C] alone gives [B] followed by "a", composing
    [C] followed by the virama gives [B], and composing [C] followed by a
    vowel sign of romanization [V] gives [B] followed by [V], for every
    vowel sign of the table. *)
Theorem consonant_composition (use_sanskrit : bool) (C B : str) :
  build_consonant_map use_sanskrit !! C = Some B →
  tamil_to_diacritic_roman C use_sanskrit = Ok (B ++ [0x61%N]) ∧
  tamil_to_diacritic_roman (C ++ TAMIL_VIRAMA) use_sanskrit = Ok B ∧
  ∀ S V : str, TAMIL_VOWEL_SIGNS !! S = Some V →
    tamil_to_diacritic_roman (C ++ S) use_sanskrit = Ok (B ++ V).
Proof.
  intros HC. destruct use_sanskrit; entries HC;
    (split; [by vm_compute|split; [by vm_compute|]]);
    intros S V HS; entries HS; by vm_compute.
Qed.

Lemma consonant_composition_witness :
  tamil_to_diacritic_roman [0x0B95%N] true = Ok [0x6B%N; 0x61%N] ∧
  tamil_to_diacritic_roman [0x0B95%N; 0x0BCD%N] true = Ok [0x6B%N] ∧
  tamil_to_diacritic_roman [0x0B95%N; 0x0BBE%N] true = Ok [0x6B%N; 0x0101%N].
Proof.
  destruct (consonant_composition true [0x0B95%N] [0x6B%N]) as (H1 & H2 & H3);
    [by vm_compute|].
  split; [exact H1|split; [exact H2|]].
  apply (H3 [0x0BBE%N] [0x0101%N]). by vm_compute.
Defined.

(** ** Passthrough *)

Lemma join_singletons (text : str) : join (map (λ c, [c]) text) = text.
Proof. induction text as [|c text IH]; [done|]. unfold join in *. cbn. by rewrite IH. Qed.

Lemma pieces_unclassified (use_sanskrit : bool) (text : str) :
  Forall (λ c, classified use_sanskrit c = false) text →
  pieces (build_consonant_map use_sanskrit) text = map (λ c, [c]) text.
Proof.
  induction 1 as [|c text Hc _ IH]; [done|].
  unfold classified in Hc.
  repeat (apply orb_false_elim in Hc as [Hc ?]).
  cbn [pieces map].
  repeat match goal with H : _ = false |- _ => rewrite H; clear H end.
  by rewrite IH.
Qed.

(** C7: on a text made of whitespace and of characters that no table
    classifies, composition is the identity. *)
Theorem compose_unclassified_identity (use_sanskrit : bool) (text : str) :
  Forall (λ c, classified use_sanskrit c = false) text →
  tamil_to_diacritic_roman text use_sanskrit = Ok text.
Proof.
  intros Htext. rewrite tamil_to_diacritic_roman_pieces.
  by rewrite pieces_unclassified, join_singletons.
Qed.

(** " a1\n" *)
Lemma compose_unclassified_identity_witness :
  tamil_to_diacritic_roman [0x20%N; 0x61%N; 0x31%N; 0x0A%N] false =
  Ok [0x20%N; 0x61%N; 0x31%N; 0x0A%N].
Proof.
  apply compose_unclassified_identity.
  repeat (constructor; [by vm_compute|]). constructor.
Defined.

(** ** Orphaned marks *)

Lemma no_consonant_at_end_cons cmap c c' text :
  no_consonant_at_end cmap (c :: c' :: text) → no_consonant_at_end cmap (c' :: text).
Proof. unfold no_consonant_at_end. by rewrite last_cons_cons. Qed.

Lemma pieces_app_aux (cmap : dict) (rest : str) (n : nat) : ∀ pre : str,
  length pre ≤ n → no_consonant_at_end cmap pre →
  pieces cmap (pre ++ rest) = pieces cmap pre ++ pieces cmap rest.
Proof.
  induction n as [|n IH]; intros [|c pre] Hn Hend; cbn [length] in Hn; try lia; [done..|].
  assert (Htail : pieces cmap (pre ++ rest) = pieces cmap pre ++ pieces cmap rest).
  { destruct pre as [|c' pre]; [done|].
    apply IH; [cbn [length] in *; lia|]. by eapply no_consonant_at_end_cons. }
  cbn [app pieces].
  repeat match goal with
         | |- context [if contains ?d ?k then _ else _] =>
           lazymatch d with
           | cmap => fail
           | _ => destruct (contains d k); [by rewrite Htail|]
           end
         | |- context [if bool_decide ?P then _ else _] =>
           destruct (bool_decide P); [by rewrite Htail|]
         end.
  destruct (contains cmap [c]) eqn:Hc; [|by rewrite Htail].
  destruct pre as [|c' pre].
  { unfold no_consonant_at_end in Hend. cbn in Hend. congruence. }
  cbn [app].
  assert (Htail2 : pieces cmap (pre ++ rest) = pieces cmap pre ++ pieces cmap rest).
  { destruct pre as [|c'' pre]; [done|].
    apply IH; [cbn [length] in *; lia|].
    eapply no_consonant_at_end_cons, no_consonant_at_end_cons, Hend. }
  destruct (bool_decide ([c'] = TAMIL_VIRAMA)); [by rewrite Htail2|].
  destruct (contains TAMIL_VOWEL_SIGNS [c']); [by rewrite Htail2|].
  cbn [app] in Htail. by rewrite Htail.
Qed.

Lemma pieces_app (cmap : dict) (pre rest : str) :
  no_consonant_at_end cmap pre →
  pieces cmap (pre ++ rest) = pieces cmap pre ++ pieces cmap rest.
Proof. by apply (pieces_app_aux cmap rest (length pre)). Qed.

Lemma is_mark_cases (c : codepoint) :
  is_mark c = true →
  [c] ∈ TAMIL_VIRAMA :: (map_to_list TAMIL_VOWEL_SIGNS).*1.
Proof.
  unfold is_mark. intros [Hv|Hs]%orb_true_iff.
  - apply bool_decide_eq_true in Hv. rewrite Hv. apply list_elem_of_here.
  - apply contains_lookup in Hs as [v Hs]. apply list_elem_of_further.
    apply list_elem_of_fmap. exists ([c], v). split; [done|].
    by apply elem_of_map_to_list.
Qed.

Lemma pieces_mark (use_sanskrit : bool) (c : codepoint) (post : str) :
  is_mark c = true →
  pieces (build_consonant_map use_sanskrit) (c :: post) =
  [c] :: pieces (build_consonant_map use_sanskrit) post.
Proof.
  intros Hc%is_mark_cases.
  assert (Hun : contains PUNCT_MAP [c] = false ∧
                bool_decide ([c] = TAMIL_ANUSVARA) = false ∧
                bool_decide ([c] = TAMIL_AAYTHAM) = false ∧
                contains TAMIL_INDEPENDENT_VOWELS [c] = false ∧
                contains (build_consonant_map use_sanskrit) [c] = false).
  { revert Hc.
    let l := eval vm_compute in (TAMIL_VIRAMA :: (map_to_list TAMIL_VOWEL_SIGNS).*1) in
    change (TAMIL_VIRAMA :: (map_to_list TAMIL_VOWEL_SIGNS).*1) with l.
    intros Hc.
    repeat (apply elem_of_cons in Hc as [Hc|Hc];
            [injection Hc as ->; destruct use_sanskrit; by vm_compute|]).
    by apply elem_of_nil in Hc. }
  destruct Hun as (H0 & H1 & H2 & H3 & H4).
  cbn [pieces]. by rewrite H0, H1, H2, H3, H4.
Qed.

(** C8: a virama or a vowel sign that does not come right after a consonant
    (it opens the text, or the character before it is no consonant) is
    emitted as it is, and the scan goes on with the character after it: the
    output is the output for the text before it, the mark, and the output
    for the text after it. *)
Theorem orphan_mark_passthrough (use_sanskrit : bool) (pre post : str) (mk : codepoint) :
  is_mark mk = true →
  no_consonant_at_end (build_consonant_map use_sanskrit) pre →
  ∃ r1 r2 : str,
    tamil_to_diacritic_roman pre use_sanskrit = Ok r1 ∧
    tamil_to_diacritic_roman post use_sanskrit = Ok r2 ∧
    tamil_to_diacritic_roman (pre ++ mk :: post) use_sanskrit = Ok (r1 ++ mk :: r2).
Proof.
  intros Hmk Hpre. rewrite !tamil_to_diacritic_roman_pieces.
  eexists _, _. split; [done|]. split; [done|].
  rewrite (pieces_app _ _ _ Hpre), (pieces_mark _ _ _ Hmk).
  unfold join. by rewrite concat_app.
Qed.

(** the text "ka" with its vowel sign, then a second vowel sign, then "ka" *)
Lemma orphan_mark_passthrough_witness :
  ∃ r1 r2 : str,
    tamil_to_diacritic_roman [0x0B95%N; 0x0BBE%N] true = Ok r1 ∧
    tamil_to_diacritic_roman [0x0B95%N] true = Ok r2 ∧
    tamil_to_diacritic_roman ([0x0B95%N; 0x0BBE%N] ++ 0x0BBF%N :: [0x0B95%N]) true =
      Ok (r1 ++ 0x0BBF%N :: r2).
Proof. apply orphan_mark_passthrough; by vm_compute. Defined.

(** ** The two consonant maps *)

Lemma build_consonant_map_agree (C : str) :
  C ≠ TAMIL_SSA → C ≠ TAMIL_SHA →
  build_consonant_map false !! C = build_consonant_map true !! C.
Proof.
  unfold TAMIL_SSA, TAMIL_SHA, build_consonant_map. intros Hssa Hsha.
  rewrite !lookup_insert. repeat case_decide; congruence.
Qed.

Lemma pieces_ext_aux (m1 m2 : dict) (n : nat) : ∀ text : str,
  length text ≤ n →
  Forall (λ c, m1 !! [c] = m2 !! [c]) text →
  pieces m1 text = pieces m2 text.
Proof.
  induction n as [|n IH]; intros [|c rest] Hn Htext; cbn [length] in Hn; try lia; [done..|].
  apply Forall_cons in Htext as [Hc Hrest].
  assert (H1 : pieces m1 rest = pieces m2 rest) by (apply IH; [lia|done]).
  assert (Hk : contains m1 [c] = contains m2 [c]) by (unfold contains; by rewrite Hc).
  cbn [pieces]. cbn zeta. rewrite Hk, Hc, H1.
  destruct rest as [|c' rest']; [done|].
  apply Forall_cons in Hrest as [_ Hrest'].
  by rewrite (IH rest') by (cbn [length] in Hn; done || lia).
Qed.

(** C5, as the program has it: the maps of the two modes have the same
    entries but for two, the consonants SSA and SHA; composing either of
    them differs between the modes, and the composition of a text in which
    neither occurs, so of any other consonant, is the same in both modes. *)
Theorem mode_sensitivity :
  (∀ C : str, C ≠ TAMIL_SSA → C ≠ TAMIL_SHA →
     build_consonant_map false !! C = build_consonant_map true !! C) ∧
  (∀ text : str, 0x0BB7%N ∉ text → 0x0BB6%N ∉ text →
     tamil_to_diacritic_roman text false = tamil_to_diacritic_roman text true) ∧
  build_consonant_map false !! TAMIL_SSA = Some [0x73%N; 0x68%N] ∧
  build_consonant_map true !! TAMIL_SSA = Some [0x1E63%N] ∧
  build_consonant_map false !! TAMIL_SHA = Some [0x73%N] ∧
  build_consonant_map true !! TAMIL_SHA = Some [0x015B%N] ∧
  tamil_to_diacritic_roman TAMIL_SSA false = Ok [0x73%N; 0x68%N; 0x61%N] ∧
  tamil_to_diacritic_roman TAMIL_SSA true = Ok [0x1E63%N; 0x61%N] ∧
  tamil_to_diacritic_roman TAMIL_SHA false = Ok [0x73%N; 0x61%N] ∧
  tamil_to_diacritic_roman TAMIL_SHA true = Ok [0x015B%N; 0x61%N].
Proof.
  split; [exact build_consonant_map_agree|].
  split; [|repeat split; by vm_compute].
  intros text Hssa Hsha. rewrite !tamil_to_diacritic_roman_pieces. do 2 f_equal.
  apply (pieces_ext_aux _ _ (length text)); [done|].
  apply Forall_forall. intros c Hc.
  apply build_consonant_map_agree; unfold TAMIL_SSA, TAMIL_SHA; congruence.
Qed.

(** the consonant JA, one of the five entries that the modes set *)
Lemma mode_sensitivity_witness :
  build_consonant_map false !! [0x0B9C%N] = build_consonant_map true !! [0x0B9C%N] ∧
  tamil_to_diacritic_roman [0x0B9C%N; 0x0BBE%N] false =
  tamil_to_diacritic_roman [0x0B9C%N; 0x0BBE%N] true.
Proof.
  destruct mode_sensitivity as (Hmap & Htext & _).
  split.
  - apply Hmap; unfold TAMIL_SSA, TAMIL_SHA; congruence.
  - apply Htext; intros Hin; repeat (apply elem_of_cons in Hin as [Hin|Hin]; [done|]);
      by apply elem_of_nil in Hin.
Defined.

(** C5, as it is stated, fails: no four or five consonants compose
    differently in the two modes. *)
Lemma no_four_entries_differ :
  ¬ ∃ D : list str,
      4 ≤ length D ≤ 5 ∧ NoDup D ∧
      (∀ C, C ∈ D → is_Some (build_consonant_map false !! C)) ∧
      (∀ C, C ∈ D →
         tamil_to_diacritic_roman C false ≠ tamil_to_diacritic_roman C true).
Proof.
  intros (D & Hlen & Hnd & Hkeys & Hdiff).
  assert (Hsub : D ⊆+ [TAMIL_SSA; TAMIL_SHA]).
  { apply NoDup_submseteq; [done|]. intros C HC.
    destruct (Hkeys C HC) as [B HB]. pose proof (Hdiff C HC) as Hne.
    entries HB;
      first [ by apply list_elem_of_here
            | by apply list_elem_of_further, list_elem_of_here
            | exfalso; apply Hne; by vm_compute ]. }
  apply submseteq_length in Hsub. cbn [length] in Hsub. lia.
Qed.

(** ** [replace] *)

Lemma prefix_nil_true (s : str) : bool_decide (([] : str) `prefix_of` s) = true.
Proof. apply bool_decide_eq_true, prefix_nil. Qed.

Lemma isin_nil (s : str) : isin [] s = true.
Proof. destruct s; cbn [isin]; by rewrite prefix_nil_true. Qed.

Lemma isin_false_nonempty (old s : str) : isin old s = false → old ≠ [].
Proof. intros Hin ->. by rewrite isin_nil in Hin. Qed.

Lemma isin_cons_false (old : str) (c : codepoint) (s : str) :
  isin old (c :: s) = false →
  bool_decide (old `prefix_of` c :: s) = false ∧ isin old s = false.
Proof. cbn [isin]. by intros ?%orb_false_elim. Qed.

Lemma replace_nonempty (s old new : str) :
  old ≠ [] → replace s old new = replace_from 0 s old new.
Proof. by destruct old. Qed.

(** Nothing is replaced in the empty string, unless the pattern is empty. *)
Lemma replace_nil (old new : str) : old ≠ [] → replace [] old new = [].
Proof. by destruct old. Qed.

Lemma replace_from_skip (l s old new : str) :
  replace_from (length l) (l ++ s) old new = replace_from 0 s old new.
Proof. induction l as [|c l IH]; [done|]. cbn [length app replace_from]. exact IH. Qed.

(** An occurrence at the head is replaced, and the scan goes on behind it. *)
Lemma replace_prefix (s old new : str) :
  old ≠ [] → replace (old ++ s) old new = new ++ replace s old new.
Proof.
  intros Hold. rewrite !replace_nonempty by done.
  destruct old as [|c old]; [done|]. cbn [app replace_from].
  rewrite bool_decide_eq_true_2 by (by apply (prefix_app_r (c :: old) (c :: old) s)).
  cbn [length]. replace (S (length old) - 1) with (length old) by lia.
  by rewrite replace_from_skip.
Qed.


(** A string in which the pattern does not occur is left as it is. *)
Lemma replace_notin (s old new : str) :
  isin old s = false → replace s old new = s.
Proof.
  intros Hin. rewrite replace_nonempty by (by eapply isin_false_nonempty).
  induction s as [|c s IH]; [done|].
  apply isin_cons_false in Hin as [Hpre Hin].
  cbn [replace_from]. by rewrite Hpre, IH.
Qed.

Lemma replace_self (old new : str) : old ≠ [] → replace old old new = new.
Proof.
  intros Hold. rewrite <- (app_nil_r old) at 1.
  by rewrite replace_prefix, replace_nil, app_nil_r.
Qed.


(** An empty pattern: [new] before every character, and once at the end. *)
Lemma replace_empty_pattern (s new : str) :
  replace s [] new = foldr (λ c acc, new ++ c :: acc) new s.
Proof.
  unfold replace. induction s as [|c s IH]; [done|].
  cbn [map concat foldr]. by rewrite <- IH, <- !app_assoc.
Qed.

Lemma replace_empty_pattern_length (s new : str) :
  length (replace s [] new) = length s + (length s + 1) * length new.
Proof.
  rewrite replace_empty_pattern. induction s as [|c s IH]; cbn [foldr length]; [lia|].
  rewrite length_app. cbn [length]. rewrite IH. lia.
Qed.

(** ** [sorted] *)
Section sorted_facts.
Context {A : Type} (key : A → Z).

Lemma insert_by_perm (x : A) (l : list A) : insert_by key x l ≡ₚ x :: l.
Proof.
  induction l as [|y l IH]; [done|]. cbn [insert_by].
  case_bool_decide; [done|]. rewrite IH. apply Permutation_swap.
Qed.

Lemma sorted_perm (l : list A) : sorted key l ≡ₚ l.
Proof.
  induction l as [|x l IH]; [done|]. cbn [sorted foldr].
  fold (sorted key l). by rewrite insert_by_perm, IH.
Qed.

Lemma insert_by_sorted (x : A) (l : list A) :
  StronglySorted (λ a b, (key a ≤ key b)%Z) l →
  StronglySorted (λ a b, (key a ≤ key b)%Z) (insert_by key x l).
Proof.
  induction 1 as [|y l Hl IH Hy]; cbn [insert_by].
  - repeat constructor.
  - case_bool_decide as Hxy.
    + constructor; [by constructor|]. constructor; [done|].
      eapply Forall_impl; [exact Hy|]. cbn. intros z Hz. lia.
    + constructor; [done|]. rewrite insert_by_perm. constructor; [lia|done].
Qed.

Lemma sorted_sorted (l : list A) :
  StronglySorted (λ a b, (key a ≤ key b)%Z) (sorted key l).
Proof.
  induction l as [|x l IH]; [constructor|].
  cbn [sorted foldr]. by apply insert_by_sorted.
Qed.

(** The elements of one key keep the order they had. *)
Lemma insert_by_stable (k : Z) (x : A) (l : list A) :
  filter (λ y, key y = k) (insert_by key x l) = filter (λ y, key y = k) (x :: l).
Proof.
  induction l as [|y l IH]; [done|]. cbn [insert_by].
  case_bool_decide as Hxy; [done|].
  rewrite filter_cons, IH, !filter_cons.
  repeat case_decide; try done; lia.
Qed.

Lemma sorted_stable (k : Z) (l : list A) :
  filter (λ y, key y = k) (sorted key l) = filter (λ y, key y = k) l.
Proof.
  induction l as [|x l IH]; [done|]. cbn [sorted foldr]. fold (sorted key l).
  by rewrite insert_by_stable, !filter_cons, IH.
Qed.

(** Of two elements, the one of the smaller key comes first. *)
Lemma sorted_before (l : list A) (x y : A) :
  x ∈ l → y ∈ l → (key x < key y)%Z →
  ∃ l1 l2 l3, sorted key l = l1 ++ x :: l2 ++ y :: l3.
Proof.
  intros Hx Hy Hlt.
  rewrite <- (sorted_perm l) in Hx, Hy.
  pose proof (sorted_sorted l) as Hs.
  apply list_elem_of_split in Hx as (l1 & l' & Heq). rewrite Heq in Hs, Hy.
  apply StronglySorted_app in Hs as (Hcross & _ & Hs').
  apply StronglySorted_cons in Hs' as [Hx' _].
  apply elem_of_app in Hy as [Hy|Hy].
  - specialize (Hcross y x Hy (list_elem_of_here _ _)). cbn in Hcross. lia.
  - apply elem_of_cons in Hy as [->|Hy]; [lia|].
    apply list_elem_of_split in Hy as (l2 & l3 & ->). by exists l1, l2, l3.
Qed.
End sorted_facts.

(** ** The order in which rules are applied *)

Lemma neg_len_le (a b : rule) :
  (neg_len a ≤ neg_len b)%Z ↔ length b.1 ≤ length a.1.
Proof. unfold neg_len. lia. Qed.

Lemma sorted_neg_len (l : list rule) :
  StronglySorted (λ a b, (neg_len a ≤ neg_len b)%Z) l →
  StronglySorted (λ a b : rule, length b.1 ≤ length a.1) l.
Proof.
  induction 1 as [|a l _ IH Ha]; constructor; [done|].
  eapply Forall_impl; [exact Ha|]. intros b. apply neg_len_le.
Qed.

(** The rules are applied longest pattern first, the rules of one pattern
    length in the order of the rule list. *)
Lemma rule_order (rules : list rule) :
  sorted neg_len rules ≡ₚ rules ∧
  StronglySorted (λ a b : rule, length b.1 ≤ length a.1) (sorted neg_len rules) ∧
  (∀ k : nat, filter (λ r : rule, length r.1 = k) (sorted neg_len rules) =
              filter (λ r : rule, length r.1 = k) rules) ∧
  (∀ r1 r2 : rule, r1 ∈ rules → r2 ∈ rules → length r2.1 < length r1.1 →
     ∃ l1 l2 l3, sorted neg_len rules = l1 ++ r1 :: l2 ++ r2 :: l3).
Proof.
  split; [apply sorted_perm|]. split; [apply sorted_neg_len, sorted_sorted|]. split.
  - intros k.
    rewrite (list_filter_iff (λ r : rule, length r.1 = k)
               (λ r, neg_len r = (- Z.of_nat k)%Z)) by (intros r; unfold neg_len; lia).
    rewrite (list_filter_iff (λ r : rule, length r.1 = k)
               (λ r, neg_len r = (- Z.of_nat k)%Z)) by (intros r; unfold neg_len; lia).
    apply sorted_stable.
  - intros r1 r2 H1 H2 Hlt. apply sorted_before; [done..|]. unfold neg_len. lia.
Qed.



Lemma apply_custom_mappings_fold (text : str) (rules : list rule) :
  apply_custom_mappings text rules =
  foldl (λ out r, replace out r.1 r.2) text (sorted neg_len rules).
Proof.
  unfold apply_custom_mappings. generalize (sorted neg_len rules). intros l.
  revert text. induction l as [|[s t] l IH]; intros text; [done|]. cbn [foldl]. apply IH.
Qed.

Section engine_facts.
Context `{Unicode}.

Lemma substitute_fold (text : str) (mappings : list rule) :
  substitute text mappings =
  foldl (λ out r, replace_preserve_case out r.1 r.2) text (sorted neg_len mappings).
Proof.
  unfold substitute. generalize (sorted neg_len mappings). intros l.
  revert text. induction l as [|[s t] l IH]; intros text; [done|]. cbn [foldl]. apply IH.
Qed.

(** Only the exact pass runs for a pattern that is empty or does not begin
    with a letter. *)
Lemma replace_preserve_case_unguarded (s src tgt : str) :
  match src with [] => True | c :: _ => isalpha c = false end →
  replace_preserve_case s src tgt = replace s src tgt.
Proof. unfold replace_preserve_case. destruct src as [|c src]; [done|]. by intros ->. Qed.

(** No case form of the pattern occurs: nothing changes. *)
Lemma replace_preserve_case_notin (s src tgt : str) :
  isin src s = false → isin (capitalize src) s = false → isin (upper src) s = false →
  replace_preserve_case s src tgt = s.
Proof.
  intros H1 H2 H3. unfold replace_preserve_case. cbn zeta.
  rewrite (replace_notin s src) by done.
  destruct src as [|c src]; [done|]. destruct (isalpha c); [|done].
  by rewrite (replace_notin s (capitalize _)), replace_notin.
Qed.

Lemma replace_preserve_case_nil (src tgt : str) :
  src ≠ [] → replace_preserve_case [] src tgt = [].
Proof.
  intros Hsrc. unfold replace_preserve_case. cbn zeta.
  rewrite (replace_nil src) by done.
  destruct src as [|c src]; [done|]. destruct (isalpha c); [|done].
  rewrite (replace_nil (capitalize _)) by (by apply capitalize_nonempty).
  by rewrite replace_nil by (by apply upper_nonempty).
Qed.

Lemma substitute_nil (mappings : list rule) :
  Forall (λ r, r.1 ≠ []) mappings → substitute [] mappings = [].
Proof.
  intros Hne. rewrite substitute_fold. rewrite <- (sorted_perm neg_len) in Hne.
  induction Hne as [|r l Hr _ IH]; [done|].
  cbn [foldl]. by rewrite replace_preserve_case_nil.
Qed.
End engine_facts.

Lemma apply_custom_mappings_nil (rules : list rule) :
  Forall (λ r, r.1 ≠ []) rules → apply_custom_mappings [] rules = [].
Proof.
  intros Hne. rewrite apply_custom_mappings_fold. rewrite <- (sorted_perm neg_len) in Hne.
  induction Hne as [|r l Hr _ IH]; [done|].
  cbn [foldl]. by rewrite replace_nil.
Qed.

Lemma apply_custom_mappings_notin (text : str) (rules : list rule) :
  Forall (λ r, isin r.1 text = false) rules → apply_custom_mappings text rules = text.
Proof.
  intros Hno. rewrite apply_custom_mappings_fold. rewrite <- (sorted_perm neg_len) in Hno.
  induction Hno as [|r l Hr _ IH]; [done|].
  cbn [foldl]. by rewrite replace_notin.
Qed.

Lemma apply_custom_mappings_substitute `{Unicode} (text : str) (rules : list rule) :
  Forall (λ r, match r.1 with [] => True | c :: _ => isalpha c = false end) rules →
  apply_custom_mappings text rules = substitute text rules.
Proof.
  intros Hun. rewrite apply_custom_mappings_fold, substitute_fold.
  rewrite <- (sorted_perm neg_len) in Hun. revert text.
  induction Hun as [|r l Hr _ IH]; intros text; [done|].
  cbn [foldl]. by rewrite replace_preserve_case_unguarded.
Qed.

(** ** Longest pattern first *)

Section longest_first.
Context `{Unicode}.




End longest_first.




(** ** The user override pass *)

(** C2, as the program has it: the user rules are applied longest pattern
    first, the rules of one length in the order of the list, each by an exact
    replacement of its pattern and of no other case form: a text in which no
    pattern occurs as it is written is left unchanged. The pass agrees with
    the engine of the built-in rules on the rule lists whose patterns are
    empty or begin with no letter. *)
Theorem custom_mappings_exact_only (text : str) (rules : list rule) :
  apply_custom_mappings text rules =
    foldl (λ out r, replace out r.1 r.2) text (sorted neg_len rules) ∧
  sorted neg_len rules ≡ₚ rules ∧
  StronglySorted (λ a b : rule, length b.1 ≤ length a.1) (sorted neg_len rules) ∧
  (∀ k : nat, filter (λ r : rule, length r.1 = k) (sorted neg_len rules) =
              filter (λ r : rule, length r.1 = k) rules) ∧
  (Forall (λ r, isin r.1 text = false) rules → apply_custom_mappings text rules = text) ∧
  (∀ U : Unicode,
     Forall (λ r, match r.1 with [] => True | c :: _ => isalpha c = false end) rules →
     apply_custom_mappings text rules = substitute text rules).
Proof.
  split; [apply apply_custom_mappings_fold|].
  destruct (rule_order rules) as (Hperm & Hsorted & Hstable & _).
  do 3 (split; [done|]).
  split; [apply apply_custom_mappings_notin|].
  intros U. apply apply_custom_mappings_substitute.
Qed.

(** "Aa AA" under the rule aa -> a with macron *)
Lemma custom_mappings_exact_only_witness :
  apply_custom_mappings [0x41%N; 0x61%N; 0x20%N; 0x41%N; 0x41%N]
    [ ([0x61%N; 0x61%N], [0x0101%N]) ] = [0x41%N; 0x61%N; 0x20%N; 0x41%N; 0x41%N].
Proof.
  destruct (custom_mappings_exact_only [0x41%N; 0x61%N; 0x20%N; 0x41%N; 0x41%N]
              [ ([0x61%N; 0x61%N], [0x0101%N]) ]) as (_ & _ & _ & _ & Hsame & _).
  apply Hsame. constructor; [by vm_compute|constructor].
Defined.

(** C2, as it is stated, fails: the user override pass leaves the Title form
    "Aa" of the pattern of the rule aa -> a with macron as it is, the engine
    of the built-in rules replaces it by the capital letter. *)
Lemma custom_mappings_not_case_aware :
  apply_custom_mappings [0x41%N; 0x61%N] [ ([0x61%N; 0x61%N], [0x0101%N]) ] =
    [0x41%N; 0x61%N] ∧
  @substitute Latin.table [0x41%N; 0x61%N] [ ([0x61%N; 0x61%N], [0x0101%N]) ] =
    [0x0100%N].
Proof. split; by vm_compute. Qed.

(** ** The all-caps pass *)

(** C4, as the program has it: the all-caps pass stands behind the same test
    as the Title pass. For a pattern [P] that is empty or begins with no
    letter only the exact pass runs, and a text without an exact occurrence
    of [P] is left as it is, its upper-cased occurrences of [P] included. For
    a pattern that begins with a letter the occurrences of [P] upper-cased
    that the exact and the Title pass have left are replaced by [R] with its
    letters upper-cased and its other characters unchanged; so are all of
    them in a text with no exact and no Title occurrence of [P], and the
    upper-cased pattern itself becomes the upper-cased replacement. *)
Theorem all_caps_pass_guarded `{Unicode} (S P R : str) :
  (match P with [] => True | c :: _ => isalpha c = false end →
     replace_preserve_case S P R = replace S P R ∧
     (isin P S = false → replace_preserve_case S P R = S)) ∧
  (match P with [] => False | c :: _ => isalpha c = true end →
     replace_preserve_case S P R =
       replace (replace (replace S P R) (capitalize P) (capitalize R))
               (upper P) (upper_alpha R) ∧
     (isin P S = false → isin (capitalize P) S = false →
        replace_preserve_case S P R = replace S (upper P) (upper_alpha R)) ∧
     (isin P (upper P) = false → isin (capitalize P) (upper P) = false →
        replace_preserve_case (upper P) P R = upper_alpha R)) ∧
  (∀ (ch : codepoint) (R' : str),
     upper_alpha (ch :: R') = (if isalpha ch then upper [ch] else [ch]) ++ upper_alpha R') ∧
  (Forall (λ ch, isalpha ch = false) R → upper_alpha R = R).
Proof.
  split; [|split; [|split]].
  - intros HP. rewrite replace_preserve_case_unguarded by done.
    split; [done|]. apply replace_notin.
  - intros HP. destruct P as [|c P]; [done|].
    assert (Hall : ∀ S', replace_preserve_case S' (c :: P) R =
                    replace (replace (replace S' (c :: P) R)
                                     (capitalize (c :: P)) (capitalize R))
                            (upper (c :: P)) (upper_alpha R)).
    { intros S'. unfold replace_preserve_case. by rewrite HP. }
    assert (Hrest : ∀ S', isin (c :: P) S' = false → isin (capitalize (c :: P)) S' = false →
                    replace_preserve_case S' (c :: P) R =
                    replace S' (upper (c :: P)) (upper_alpha R)).
    { intros S' H1 H2. rewrite Hall.
      by rewrite (replace_notin S' (c :: P)), (replace_notin S' (capitalize _)). }
    split; [apply Hall|]. split; [apply Hrest|].
    intros H1 H2. rewrite Hrest by done. apply replace_self.
    by apply upper_nonempty.
  - done.
  - induction 1 as [|ch R' Hch _ IH]; [done|].
    unfold upper_alpha, join in *. cbn [map concat]. by rewrite Hch, IH.
Qed.

(** "AARAM" under the rule aa -> a with macron *)
Lemma all_caps_pass_guarded_witness :
  @replace_preserve_case Latin.table
    [0x41%N; 0x41%N; 0x52%N; 0x41%N; 0x4D%N] [0x61%N; 0x61%N] [0x0101%N] =
  [0x0100%N; 0x52%N; 0x41%N; 0x4D%N].
Proof.
  destruct (@all_caps_pass_guarded Latin.table
              [0x41%N; 0x41%N; 0x52%N; 0x41%N; 0x4D%N] [0x61%N; 0x61%N] [0x0101%N])
    as (_ & Hcaps & _).
  destruct Hcaps as (_ & Hrest & _); [by vm_compute|].
  rewrite Hrest; by vm_compute.
Defined.

(** C4, as it is stated, fails: the pattern "1a" begins with no letter, and
    the occurrence "1A" of the pattern upper-cased stays where the all-caps
    pass would have put "B". *)
Lemma all_caps_pass_skipped :
  @upper Latin.table [0x31%N; 0x61%N] = [0x31%N; 0x41%N] ∧
  @replace_preserve_case Latin.table [0x31%N; 0x41%N] [0x31%N; 0x61%N] [0x62%N] =
    [0x31%N; 0x41%N] ∧
  replace [0x31%N; 0x41%N] (@upper Latin.table [0x31%N; 0x61%N])
          (@upper_alpha Latin.table [0x62%N]) = [0x42%N].
Proof. repeat split; by vm_compute. Qed.

(** ** Conversion never raises *)

Lemma replace_empty_pattern_nonempty (s new : str) : s ≠ [] → replace s [] new ≠ [].
Proof.
  intros Hs Hnil. pose proof (replace_empty_pattern_length s new) as Hlen.
  rewrite Hnil in Hlen. destruct s; [done|]. cbn [length] in Hlen. lia.
Qed.

(** Rules with the empty pattern empty no text. *)
Lemma empty_patterns_nonempty (l : list rule) : ∀ s : str,
  s ≠ [] → Forall (λ r : rule, r.1 = []) l →
  foldl (λ out r, replace out r.1 r.2) s l ≠ [].
Proof.
  induction l as [|r l IH]; intros s Hs Hl; [done|].
  apply Forall_cons in Hl as [Hr Hl]. cbn [foldl]. apply IH; [|done].
  rewrite Hr. by apply replace_empty_pattern_nonempty.
Qed.

(** The rules with an empty pattern come last, so the empty text stays empty
    until one of them puts its replacement. *)
Lemma rules_on_empty_text (l : list rule) :
  StronglySorted (λ a b : rule, length b.1 ≤ length a.1) l →
  foldl (λ out r, replace out r.1 r.2) [] l = [] ↔
  Forall (λ r : rule, r.1 = [] → r.2 = []) l.
Proof.
  induction 1 as [|[old new] l Hs IH Hr]; [done|].
  cbn [foldl fst snd]. destruct old as [|c old].
  - destruct new as [|x new].
    + change (replace [] [] []) with ([] : str). rewrite IH. split.
      * intros Hl. by constructor.
      * by intros [_ Hl]%Forall_cons.
    + change (replace [] [] (x :: new)) with (x :: new). split.
      * intros Hnil. exfalso. revert Hnil. apply empty_patterns_nonempty; [done|].
        eapply Forall_impl; [exact Hr|]. intros r Hlen. cbn in Hlen.
        destruct r.1; [done|cbn in Hlen; lia].
      * intros [Hhead _]%Forall_cons. by specialize (Hhead eq_refl).
  - rewrite replace_nil by done. rewrite IH. split.
    + intros Hl. by constructor.
    + by intros [_ Hl]%Forall_cons.
Qed.

Lemma apply_custom_mappings_nil_iff (rules : list rule) :
  apply_custom_mappings [] rules = [] ↔ Forall (λ r : rule, r.1 = [] → r.2 = []) rules.
Proof.
  rewrite apply_custom_mappings_fold.
  destruct (rule_order rules) as (Hperm & Hsorted & _).
  by rewrite rules_on_empty_text, Hperm.
Qed.

(** C6, as the program has it: the conversion returns for every text, mode,
    submode and rule list, it raises nothing; and the empty text is converted
    to the empty text, in either mode, exactly when every user rule with an
    empty pattern has an empty replacement: so it is when the patterns are
    non-empty, as the data model has them, and a rule with the empty pattern
    and a non-empty replacement puts its replacement into the empty text. *)
Theorem convert_never_raises `{Unicode} :
  (∀ (src : str) (mode : input_mode) (use_sanskrit : bool) (custom_rules : list rule),
     ∃ r : str, convert src mode use_sanskrit custom_rules = Ok r) ∧
  (∀ (mode : input_mode) (use_sanskrit : bool) (custom_rules : list rule),
     convert [] mode use_sanskrit custom_rules = Ok [] ↔
     Forall (λ r : rule, r.1 = [] → r.2 = []) custom_rules) ∧
  (∀ (mode : input_mode) (use_sanskrit : bool) (custom_rules : list rule),
     Forall (λ r : rule, r.1 ≠ []) custom_rules →
     convert [] mode use_sanskrit custom_rules = Ok []).
Proof.
  assert (Hempty : ∀ (mode : input_mode) (use_sanskrit : bool) (custom_rules : list rule),
     convert [] mode use_sanskrit custom_rules = Ok [] ↔
     Forall (λ r : rule, r.1 = [] → r.2 = []) custom_rules).
  { intros mode use_sanskrit custom_rules. unfold convert.
    assert (Hfirst : match mode with
                     | Roman => Ok (apply_roman_mappings [])
                     | Tamil => tamil_to_diacritic_roman [] use_sanskrit
                     end = Ok []).
    { destruct mode; [by destruct use_sanskrit; vm_compute|].
      unfold apply_roman_mappings. rewrite substitute_nil; [done|].
      unfold ROMAN_MAPPINGS. by repeat constructor. }
    rewrite Hfirst. cbn [mbind result_bind].
    destruct custom_rules as [|r rules]; [done|].
    rewrite <- apply_custom_mappings_nil_iff. split; [by intros [= ->]|by intros ->]. }
  split; [|split; [exact Hempty|]].
  - intros src mode use_sanskrit custom_rules. unfold convert.
    destruct mode; [rewrite tamil_to_diacritic_roman_pieces|];
      cbn [mbind result_bind]; destruct custom_rules; by eexists.
  - intros mode use_sanskrit custom_rules Hne. apply Hempty.
    eapply Forall_impl; [exact Hne|]. by intros r Hr Hnil.
Qed.

(** the empty text, Roman mode, under the user rule a -> b *)
Lemma convert_never_raises_witness :
  @convert Latin.table [] Roman true [ ([0x61%N], [0x62%N]) ] = Ok [].
Proof.
  destruct (@convert_never_raises Latin.table) as (_ & _ & Hempty).
  apply Hempty. by repeat constructor.
Defined.

(** C6, as it is stated, fails: under the user rule that puts "x" for the
    empty pattern the empty text is converted to "x", in either mode. *)
Lemma convert_empty_text_not_empty :
  @convert Latin.table [] Roman true [ ([], [0x78%N]) ] = Ok [0x78%N] ∧
  @convert Latin.table [] Tamil true [ ([], [0x78%N]) ] = Ok [0x78%N] ∧
  @convert Latin.table [] Tamil false [ ([], [0x78%N]) ] = Ok [0x78%N].
Proof. repeat split; by vm_compute. Qed.

(** ** Substituting twice *)

(** C9: substituting is not idempotent. Under the rules ab -> x and c -> b
    the text "ac" becomes "ab", the replacement of the second rule making an
    occurrence of the pattern of the first, and "ab" becomes "x"; so it is
    for the engine of the built-in rules and for the user override pass. *)
Theorem substitute_not_idempotent :
  ∃ (R : list rule) (s : str),
    @substitute Latin.table (@substitute Latin.table s R) R ≠ @substitute Latin.table s R ∧
    apply_custom_mappings (apply_custom_mappings s R) R ≠ apply_custom_mappings s R.
Proof.
  exists [ ([0x61%N; 0x62%N], [0x78%N]); ([0x63%N], [0x62%N]) ], [0x61%N; 0x63%N].
  split; by vm_compute.
Qed.

(** ** A user rule with an empty pattern *)

(** C10: a user rule with the empty pattern and a non-empty target [t] is
    applied as any other: the result is [s] with [t] before every character
    and once at the end, of length [len(s) + (len(s) + 1) * len(t)], and so
    never [s] itself. *)
Theorem empty_pattern_rule_applies (s t : str) :
  t ≠ [] →
  apply_custom_mappings s [([], t)] = foldr (λ c acc, t ++ c :: acc) t s ∧
  length (apply_custom_mappings s [([], t)]) = length s + (length s + 1) * length t ∧
  apply_custom_mappings s [([], t)] ≠ s.
Proof.
  intros Ht.
  assert (Hrun : apply_custom_mappings s [([], t)] = replace s [] t) by done.
  rewrite Hrun. split; [apply replace_empty_pattern|].
  pose proof (replace_empty_pattern_length s t) as Hlen.
  split; [done|]. intros Heq. rewrite Heq in Hlen.
  destruct t as [|c t]; [done|]. cbn [length] in Hlen. lia.
Qed.

(** "ab" under the rule with the empty pattern and the target "-" *)
Lemma empty_pattern_rule_applies_witness :
  apply_custom_mappings [0x61%N; 0x62%N] [([], [0x2D%N])] =
    [0x2D%N; 0x61%N; 0x2D%N; 0x62%N; 0x2D%N] ∧
  length (apply_custom_mappings [0x61%N; 0x62%N] [([], [0x2D%N])]) = 2 + (2 + 1) * 1 ∧
  apply_custom_mappings [0x61%N; 0x62%N] [([], [0x2D%N])] ≠ [0x61%N; 0x62%N].
Proof. by apply (empty_pattern_rule_applies [0x61%N; 0x62%N] [0x2D%N]). Defined.

(** * Further properties of the script composer *)

Lemma pieces_cons (cmap : dict) (c : codepoint) (rest : str) :
  pieces cmap (c :: rest) =
  (head_piece cmap c rest).1 :: pieces cmap (head_piece cmap c rest).2.
Proof.
  unfold head_piece. cbn [pieces].
  repeat match goal with
         | |- context [if ?b then _ else _] => destruct b; try done
         | |- context [match ?l with [] => _ | _ :: _ => _ end] => destruct l; try done
         end.
Qed.

(** An iteration leaves the rest of the text, or the rest without its first
    character. *)
Lemma head_piece_rest (cmap : dict) (c : codepoint) (rest : str) :
  (head_piece cmap c rest).2 = rest ∨
  ∃ c', is_mark c' = true ∧ rest = c' :: (head_piece cmap c rest).2.
Proof.
  unfold head_piece, is_mark.
  repeat match goal with
         | |- context [if ?b then _ else _] => destruct b eqn:?; try (by left)
         | |- context [match ?l with [] => _ | _ :: _ => _ end] => destruct l; try (by left)
         end; right; eexists; (split; [|done]);
    repeat match goal with H : _ = _ |- _ => rewrite H end; done.
Qed.

(** Induction on a text by the steps of the loop, of one character or two *)
Lemma str_pair_ind (P : str → Prop) :
  P [] → (∀ c rest, P rest → (∀ c' rest', rest = c' :: rest' → P rest') → P (c :: rest)) →
  ∀ s, P s.
Proof.
  intros Hnil Hcons s.
  assert (Hboth : P s ∧ (∀ c' rest', s = c' :: rest' → P rest')); [|by destruct Hboth].
  induction s as [|c s [IH1 IH2]]; [by split|].
  split; [by apply Hcons|]. by intros c' rest' [= _ <-].
Qed.

Lemma pieces_step_ind (cmap : dict) (P : str → Prop) :
  P [] → (∀ c rest, P (head_piece cmap c rest).2 → P (c :: rest)) → ∀ s, P s.
Proof.
  intros Hnil Hstep. apply str_pair_ind; [done|].
  intros c rest Hrest Hrest'. apply Hstep.
  destruct (head_piece_rest cmap c rest) as [->|(c' & _ & Heq)]; [done|].
  by eapply Hrest'.
Qed.

(** ** Checks over the entries of a table *)

Lemma dict_values (d : dict) (Q : str → bool) :
  forallb (λ kv, Q kv.2) (map_to_list d) = true →
  ∀ k v, d !! k = Some v → Q v = true.
Proof.
  intros Hall k v Hk. apply elem_of_map_to_list, list_elem_of_In in Hk.
  by apply (proj1 (forallb_forall _ _) Hall (k, v)).
Qed.

Lemma dict_keys (d : dict) (Q : str → bool) :
  forallb (λ kv, Q kv.1) (map_to_list d) = true →
  ∀ k, contains d k = true → Q k = true.
Proof.
  intros Hall k [v Hk]%contains_lookup. apply elem_of_map_to_list, list_elem_of_In in Hk.
  by apply (proj1 (forallb_forall _ _) Hall (k, v)).
Qed.

Lemma dict_default (d : dict) (Q : str → bool) (k : str) :
  forallb (λ kv, Q kv.2) (map_to_list d) = true →
  contains d k = true → Q (default [] (d !! k)) = true.
Proof.
  intros Hall [v Hk]%contains_lookup. rewrite Hk. by eapply dict_values.
Qed.

Lemma contains_mode (m m' : bool) (ch : str) :
  contains (build_consonant_map m) ch = contains (build_consonant_map m') ch.
Proof.
  destruct m, m'; try done; unfold contains, build_consonant_map;
    rewrite !lookup_insert; by repeat case_decide.
Qed.

Lemma convertible_mode (m m' : bool) (c : codepoint) :
  convertible m c = convertible m' c.
Proof. unfold convertible. by rewrite (contains_mode m m'). Qed.

(** ** The tests of the loop exclude one another *)

(** X1: a character passes at most one of the tests of the loop (punctuation,
    anusvara, aytham, independent vowel, consonant of the mode, virama,
    vowel sign): the tables and the markers have no key in common, and the
    order of the tests decides nothing. *)
Theorem classification_disjoint (use_sanskrit : bool) (ch : str) :
  count_true (classification_tests use_sanskrit ch) ≤ 1.
Proof.
  pose (Q := λ k : str, count_true (classification_tests use_sanskrit k) <=? 1).
  assert (HQ : Q ch = true); [|by apply Nat.leb_le in HQ].
  destruct (contains PUNCT_MAP ch) eqn:H1.
  { revert H1. apply dict_keys. by destruct use_sanskrit; vm_compute. }
  destruct (contains TAMIL_INDEPENDENT_VOWELS ch) eqn:H2.
  { revert H2. apply dict_keys. by destruct use_sanskrit; vm_compute. }
  destruct (contains (build_consonant_map use_sanskrit) ch) eqn:H3.
  { revert H3. apply dict_keys. by destruct use_sanskrit; vm_compute. }
  destruct (contains TAMIL_VOWEL_SIGNS ch) eqn:H4.
  { revert H4. apply dict_keys. by destruct use_sanskrit; vm_compute. }
  unfold Q, classification_tests. rewrite H1, H2, H3, H4.
  repeat case_bool_decide; subst; done.
Qed.

(** ** The output holds nothing left to convert *)

Lemma clean_app (m : bool) (s1 s2 : str) :
  clean m (s1 ++ s2) = clean m s1 && clean m s2.
Proof. apply forallb_app. Qed.

Lemma head_piece_clean (m m' : bool) (c : codepoint) (rest : str) :
  clean m' (head_piece (build_consonant_map m) c rest).1 = true.
Proof.
  unfold head_piece.
  destruct (contains PUNCT_MAP [c]) eqn:H1.
  { apply (dict_default _ (clean m')); [by destruct m'; vm_compute|done]. }
  case_bool_decide as H2; [by destruct m'; vm_compute|].
  case_bool_decide as H3; [by destruct m'; vm_compute|].
  destruct (contains TAMIL_INDEPENDENT_VOWELS [c]) eqn:H4.
  { apply (dict_default _ (clean m')); [by destruct m'; vm_compute|done]. }
  destruct (contains (build_consonant_map m) [c]) eqn:H5.
  - assert (Hbase : clean m' (default [] (build_consonant_map m !! [c])) = true).
    { apply (dict_default _ (clean m')); [by destruct m, m'; vm_compute|done]. }
    assert (Ha : clean m' [0x61%N] = true) by (by destruct m'; vm_compute).
    destruct rest as [|c' rest']; cbn [fst]; [by rewrite clean_app, Hbase, Ha|].
    case_bool_decide; [done|].
    destruct (contains TAMIL_VOWEL_SIGNS [c']) eqn:H6; cbn [fst];
      rewrite clean_app, Hbase; [|done].
    apply (dict_default _ (clean m')); [by destruct m'; vm_compute|done].
  - cbn [fst clean forallb]. unfold convertible.
    rewrite (contains_mode m' m), H1, H4, H5.
    by rewrite !bool_decide_eq_false_2.
Qed.

Lemma pieces_clean (m m' : bool) (text : str) :
  clean m' (join (pieces (build_consonant_map m) text)) = true.
Proof.
  revert text. apply (pieces_step_ind (build_consonant_map m)); [done|].
  intros c rest IH. rewrite pieces_cons. unfold join in *. cbn [concat].
  by rewrite clean_app, head_piece_clean, IH.
Qed.

Lemma clean_Forall (m : bool) (s : str) :
  clean m s = true → Forall (λ c, convertible m c = false) s.
Proof.
  unfold clean. rewrite forallb_forall, Forall_forall.
  intros Hall c Hc. apply list_elem_of_In, Hall in Hc. by destruct (convertible m c).
Qed.

(** X2: the romanization holds no character that the composer converts: no
    consonant, independent vowel, anusvara or aytham of the script and no
    character of the punctuation table, in either mode. *)
Theorem output_not_convertible (text : str) (use_sanskrit m' : bool) :
  ∃ r : str, tamil_to_diacritic_roman text use_sanskrit = Ok r ∧
             Forall (λ c, convertible m' c = false) r.
Proof.
  rewrite tamil_to_diacritic_roman_pieces. eexists. split; [done|].
  apply clean_Forall, pieces_clean.
Qed.

Lemma pieces_not_convertible (m : bool) (text : str) :
  Forall (λ c, convertible m c = false) text →
  pieces (build_consonant_map m) text = map (λ c, [c]) text.
Proof.
  induction 1 as [|c text Hc _ IH]; [done|].
  unfold convertible in Hc.
  repeat (apply orb_false_elim in Hc as [Hc ?]).
  cbn [pieces map].
  repeat match goal with H : _ = false |- _ => rewrite H; clear H end.
  by rewrite IH.
Qed.

(** X3: composing is idempotent, and so across the modes: the romanization
    of a text is composed to itself. *)
Theorem compose_idempotent (text : str) (use_sanskrit m' : bool) :
  ∃ r : str, tamil_to_diacritic_roman text use_sanskrit = Ok r ∧
             tamil_to_diacritic_roman r m' = Ok r.
Proof.
  exists (join (pieces (build_consonant_map use_sanskrit) text)).
  split; [apply tamil_to_diacritic_roman_pieces|].
  rewrite tamil_to_diacritic_roman_pieces.
  rewrite pieces_not_convertible by apply clean_Forall, pieces_clean.
  by rewrite join_singletons.
Qed.

(** ** Composing a text part by part *)

Lemma is_mark_false (c : codepoint) :
  is_mark c = false →
  bool_decide ([c] = TAMIL_VIRAMA) = false ∧ contains TAMIL_VOWEL_SIGNS [c] = false.
Proof. unfold is_mark. by intros ?%orb_false_elim. Qed.

Lemma pieces_app_no_mark (cmap : dict) (a b : str) :
  no_mark_at_start b →
  pieces cmap (a ++ b) = pieces cmap a ++ pieces cmap b.
Proof.
  intros Hb. revert a. apply str_pair_ind; [done|].
  intros c rest IH IH'. cbn [app pieces]. rewrite IH.
  repeat match goal with
         | |- context [if contains ?d [c] then _ else _] => destruct (contains d [c]); [done|]
         | |- context [if bool_decide ([c] = ?k) then _ else _] =>
           destruct (bool_decide ([c] = k)); [done|]
         end; try done.
  destruct (contains cmap [c]); [|done].
  destruct rest as [|c' rest'].
  - cbn [app pieces]. destruct b as [|c' b']; [done|].
    cbn in Hb. apply is_mark_false in Hb as [-> ->]. done.
  - cbn [app]. rewrite (IH' c' rest' eq_refl).
    destruct (bool_decide ([c'] = TAMIL_VIRAMA)); [done|].
    by destruct (contains TAMIL_VOWEL_SIGNS [c']).
Qed.

(** X4: a text may be composed part by part: where the first part ends with
    no consonant, or the second part begins with no virama and no vowel sign,
    the romanization of the two parts put together is the romanization of the
    first followed by that of the second. *)
Theorem compose_split (a b : str) (use_sanskrit : bool) :
  no_consonant_at_end (build_consonant_map use_sanskrit) a ∨ no_mark_at_start b →
  ∃ ra rb : str,
    tamil_to_diacritic_roman a use_sanskrit = Ok ra ∧
    tamil_to_diacritic_roman b use_sanskrit = Ok rb ∧
    tamil_to_diacritic_roman (a ++ b) use_sanskrit = Ok (ra ++ rb).
Proof.
  intros Hcut. rewrite !tamil_to_diacritic_roman_pieces.
  eexists _, _. split; [done|]. split; [done|].
  assert (Happ : pieces (build_consonant_map use_sanskrit) (a ++ b) =
                 pieces (build_consonant_map use_sanskrit) a ++
                 pieces (build_consonant_map use_sanskrit) b).
  { destruct Hcut; [by apply pieces_app|by apply pieces_app_no_mark]. }
  rewrite Happ. unfold join. by rewrite concat_app.
Qed.

(** the words KA and MA, parted before the space *)
Lemma compose_split_witness :
  ∃ ra rb : str,
    tamil_to_diacritic_roman [0x0B95%N] true = Ok ra ∧
    tamil_to_diacritic_roman [0x20%N; 0x0BAE%N] true = Ok rb ∧
    tamil_to_diacritic_roman ([0x0B95%N] ++ [0x20%N; 0x0BAE%N]) true = Ok (ra ++ rb).
Proof. apply compose_split. right. by vm_compute. Defined.

(** ** The length of the romanization *)

Lemma head_piece_length (m : bool) (c : codepoint) (rest : str) :
  length (head_piece (build_consonant_map m) c rest).1 +
  3 * length (head_piece (build_consonant_map m) c rest).2 ≤ 3 + 3 * length rest.
Proof.
  pose (Q := λ v : str, length v <=? 2).
  unfold head_piece.
  destruct (contains PUNCT_MAP [c]) eqn:H1.
  { assert (HQ : Q (default [] (PUNCT_MAP !! [c])) = true)
      by (apply dict_default; [by vm_compute|done]).
    apply Nat.leb_le in HQ. cbn [fst snd]. lia. }
  case_bool_decide; [cbn [fst snd length]; lia|].
  case_bool_decide; [cbn [fst snd length]; lia|].
  destruct (contains TAMIL_INDEPENDENT_VOWELS [c]) eqn:H4.
  { assert (HQ : Q (default [] (TAMIL_INDEPENDENT_VOWELS !! [c])) = true)
      by (apply dict_default; [by vm_compute|done]).
    apply Nat.leb_le in HQ. cbn [fst snd]. lia. }
  destruct (contains (build_consonant_map m) [c]) eqn:H5; [|cbn [fst snd length]; lia].
  assert (HQ : Q (default [] (build_consonant_map m !! [c])) = true)
    by (apply dict_default; [by destruct m; vm_compute|done]).
  apply Nat.leb_le in HQ. cbn zeta.
  destruct rest as [|c' rest']; [cbn [fst snd]; rewrite length_app; cbn [length]; lia|].
  case_bool_decide; [cbn [fst snd length]; lia|].
  destruct (contains TAMIL_VOWEL_SIGNS [c']) eqn:H6;
    cbn [fst snd]; rewrite length_app; cbn [length]; [|lia].
  assert (HV : Q (default [] (TAMIL_VOWEL_SIGNS !! [c'])) = true)
    by (apply dict_default; [by vm_compute|done]).
  apply Nat.leb_le in HV. lia.
Qed.

(** X5: the romanization is at most three times as long as the text, in code
    points; the consonant SSA alone, "sha" in the standard mode, is as long
    as that. *)
Theorem compose_length (text : str) (use_sanskrit : bool) :
  (∃ r : str, tamil_to_diacritic_roman text use_sanskrit = Ok r ∧
              length r ≤ 3 * length text) ∧
  ∃ r : str, tamil_to_diacritic_roman TAMIL_SSA false = Ok r ∧
             length r = 3 * length TAMIL_SSA.
Proof.
  split; [|by eexists; split; [by vm_compute|]].
  rewrite tamil_to_diacritic_roman_pieces. eexists. split; [done|].
  revert text. apply (pieces_step_ind (build_consonant_map use_sanskrit)); [cbn; lia|].
  intros c rest IH. rewrite pieces_cons. unfold join in *. cbn [concat length].
  rewrite length_app.
  pose proof (head_piece_length use_sanskrit c rest). lia.
Qed.

(** ** The Tamil block *)

(** X6: every character that the composer converts or combines, the
    punctuation apart, lies in the Tamil block as [is_tamil_char] tests it,
    and no character of the punctuation table does; so a text with no
    character of the block and none of the punctuation table is composed to
    itself. *)
Theorem tamil_block (use_sanskrit : bool) :
  (∀ ch : str,
     ch = TAMIL_ANUSVARA ∨ ch = TAMIL_AAYTHAM ∨ ch = TAMIL_VIRAMA ∨
     contains TAMIL_INDEPENDENT_VOWELS ch = true ∨
     contains (build_consonant_map use_sanskrit) ch = true ∨
     contains TAMIL_VOWEL_SIGNS ch = true →
     is_tamil_char ch = true) ∧
  (∀ ch : str, contains PUNCT_MAP ch = true → is_tamil_char ch = false) ∧
  (∀ text : str,
     Forall (λ c, is_tamil_char [c] = false ∧ contains PUNCT_MAP [c] = false) text →
     tamil_to_diacritic_roman text use_sanskrit = Ok text).
Proof.
  assert (Hblock : ∀ ch : str,
     ch = TAMIL_ANUSVARA ∨ ch = TAMIL_AAYTHAM ∨ ch = TAMIL_VIRAMA ∨
     contains TAMIL_INDEPENDENT_VOWELS ch = true ∨
     contains (build_consonant_map use_sanskrit) ch = true ∨
     contains TAMIL_VOWEL_SIGNS ch = true →
     is_tamil_char ch = true).
  { intros ch [->|[->|[->|[H|[H|H]]]]]; try (by vm_compute);
      revert H; apply dict_keys; by destruct use_sanskrit; vm_compute. }
  split; [exact Hblock|]. split.
  - intros ch Hp. apply negb_true_iff. revert Hp.
    apply (dict_keys _ (λ k, negb (is_tamil_char k))). by vm_compute.
  - intros text Htext. rewrite tamil_to_diacritic_roman_pieces.
    rewrite pieces_not_convertible, join_singletons; [done|].
    eapply Forall_impl; [exact Htext|]. intros c [Hc Hp]. unfold convertible.
    rewrite Hp. cbn [orb].
    repeat match goal with
           | |- context [bool_decide ?P] =>
             destruct (bool_decide_reflect P) as [Heq|_];
               [rewrite Hblock in Hc by (rewrite Heq; tauto); done|]
           | |- context [contains ?d [c]] =>
             destruct (contains d [c]) eqn:?;
               [rewrite Hblock in Hc by tauto; done|]
           end.
    done.
Qed.

(** "ab 1" *)
Lemma tamil_block_witness :
  tamil_to_diacritic_roman [0x61%N; 0x62%N; 0x20%N; 0x31%N] false =
  Ok [0x61%N; 0x62%N; 0x20%N; 0x31%N].
Proof.
  destruct (tamil_block false) as (_ & _ & Hpass). apply Hpass.
  repeat (constructor; [by vm_compute|]). constructor.
Defined.

(** ** The consonant map keeps the core table *)

(** X7: in either mode the consonant map holds every entry of the core
    table unchanged; its keys are the keys of the core table and the five
    consonants set for the mode, none of which is a key of the core table. *)
Theorem build_consonant_map_keeps_core (use_sanskrit : bool) :
  (∀ C B : str, TAMIL_CONSONANTS_CORE !! C = Some B →
     build_consonant_map use_sanskrit !! C = Some B) ∧
  (∀ C : str, contains (build_consonant_map use_sanskrit) C = true ↔
     contains TAMIL_CONSONANTS_CORE C = true ∨ C ∈ GRANTHA) ∧
  (∀ C : str, C ∈ GRANTHA → contains TAMIL_CONSONANTS_CORE C = false).
Proof.
  assert (Hkeep : ∀ C B : str, TAMIL_CONSONANTS_CORE !! C = Some B →
     build_consonant_map use_sanskrit !! C = Some B).
  { intros C B HC. entries HC; by destruct use_sanskrit; vm_compute. }
  assert (Hnew : ∀ C : str, C ∈ GRANTHA →
     contains TAMIL_CONSONANTS_CORE C = false ∧
     contains (build_consonant_map use_sanskrit) C = true).
  { intros C HC. unfold GRANTHA in HC.
    repeat (apply elem_of_cons in HC as [->|HC];
            [by destruct use_sanskrit; vm_compute|]).
    by apply elem_of_nil in HC. }
  split; [exact Hkeep|]. split; [|by intros C [? _]%Hnew].
  intros C. split.
  - intros HC. destruct (decide (C ∈ GRANTHA)) as [|Hout]; [by right|left].
    revert HC. unfold contains, build_consonant_map.
    destruct use_sanskrit; rewrite !lookup_insert;
      repeat case_decide; subst; try done; exfalso; apply Hout; unfold GRANTHA;
      repeat first [apply list_elem_of_here | apply list_elem_of_further].
  - intros [[B HC]%contains_lookup|HC].
    + unfold contains. by rewrite (Hkeep C B HC).
    + by apply Hnew.
Qed.

(** the consonant KA *)
Lemma build_consonant_map_keeps_core_witness :
  build_consonant_map false !! [0x0B95%N] = Some [0x6B%N].
Proof.
  destruct (build_consonant_map_keeps_core false) as (Hkeep & _).
  apply Hkeep. by vm_compute.
Defined.

(** * Further properties of the substitution engine *)

(** ** More on [replace] *)

Lemma replace_from_drop (k : nat) (s old new : str) :
  replace_from k s old new = replace_from 0 (drop k s) old new.
Proof.
  revert k. induction s as [|c s IH]; intros [|k]; try done. cbn [replace_from drop]. apply IH.
Qed.

(** Replacing a pattern by itself changes nothing. *)
Lemma replace_same (s old : str) : replace s old old = s.
Proof.
  destruct old as [|o old].
  { unfold replace. rewrite app_nil_r. exact (join_singletons s). }
  unfold replace.
  assert (Hgen : ∀ k, replace_from k s (o :: old) (o :: old) = drop k s); [|by rewrite Hgen].
  induction s as [|c s IH]; intros [|k]; try done; [|apply IH].
  cbn [replace_from drop]. case_bool_decide as Hpre; [|by rewrite IH].
  rewrite IH. destruct Hpre as [t Ht].
  injection Ht as <- ->. cbn [length]. replace (S (length old) - 1) with (length old) by lia.
  by rewrite drop_app_length.
Qed.

Lemma replace_length (s old new : str) :
  length new ≤ length old → length (replace s old new) ≤ length s.
Proof.
  intros Hlen. destruct old as [|o old].
  { destruct new; [|cbn in Hlen; lia]. by rewrite replace_same. }
  unfold replace. generalize dependent (o :: old). clear o old. intros old Hlen.
  remember (length s) as n eqn:Hn. revert s Hn.
  induction n as [n IH] using lt_wf_ind. intros s Hn.
  destruct s as [|c s]; [cbn; lia|]. cbn [replace_from].
  case_bool_decide as Hpre.
  - rewrite length_app, replace_from_drop.
    pose proof (prefix_length _ _ Hpre) as Hle. cbn [length] in Hle.
    assert (Hshort : length (drop (length old - 1) s) < n)
      by (rewrite length_drop; subst n; cbn [length]; lia).
    pose proof (IH _ Hshort _ eq_refl) as IH'.
    rewrite length_drop in IH'. subst n. cbn [length]. lia.
  - assert (Hshort : length s < n) by (subst n; cbn [length]; lia).
    pose proof (IH _ Hshort s eq_refl). subst n. cbn [length]. lia.
Qed.

(** ** Occurrences before and after a replacement *)

Lemma isin_prefix (p s : str) : p `prefix_of` s → isin p s = true.
Proof. intros Hp. destruct s; cbn [isin]; by rewrite bool_decide_eq_true_2. Qed.

Lemma isin_cons (p : str) (c : codepoint) (s : str) :
  isin p s = true → isin p (c :: s) = true.
Proof. intros Hs. cbn [isin]. rewrite Hs. apply orb_true_r. Qed.

(** A pattern whose first character the text does not have occurs nowhere. *)
Lemma isin_first_absent (c : codepoint) (p s : str) :
  c ∉ s → isin (c :: p) s = false.
Proof.
  induction s as [|x s IH]; intros Hc.
  - cbn [isin]. by rewrite bool_decide_eq_false_2 by (by intros [? ?]).
  - apply not_elem_of_cons in Hc as [Hne Hc]. cbn [isin].
    rewrite IH by done.
    rewrite bool_decide_eq_false_2; [done|]. by intros ->%prefix_cons_inv_1.
Qed.

(** A prefix of the result that shares no character with the replacement is
    a prefix of the text. *)
Lemma prefix_replace_from (p s old new : str) :
  new ≠ [] → (∀ c, c ∈ new → c ∉ p) →
  p `prefix_of` replace_from 0 s old new → p `prefix_of` s.
Proof.
  intros Hnew. revert p. induction s as [|c s IH]; intros p Hdisj Hp; [done|].
  destruct p as [|x p]; [apply prefix_nil|].
  cbn [replace_from] in Hp. case_bool_decide.
  - destruct new as [|n0 new]; [done|]. cbn [app] in Hp.
    apply prefix_cons_inv_1 in Hp as ->. exfalso.
    apply (Hdisj n0); apply list_elem_of_here.
  - pose proof (prefix_cons_inv_1 _ _ _ _ Hp) as ->. apply prefix_cons.
    apply IH; [|by eapply prefix_cons_inv_2].
    intros c' Hc' Hin. apply (Hdisj c' Hc'). by apply list_elem_of_further.
Qed.

Lemma isin_app_disjoint (l rest p : str) :
  (∀ c, c ∈ l → c ∉ p) → isin p (l ++ rest) = true → p = [] ∨ isin p rest = true.
Proof.
  induction l as [|a l IH]; intros Hdisj Hin; [by right|].
  cbn [app isin] in Hin. apply orb_true_iff in Hin as [Hpre|Hin].
  - apply bool_decide_eq_true in Hpre. destruct p as [|x p]; [by left|].
    apply prefix_cons_inv_1 in Hpre as ->. exfalso.
    apply (Hdisj a); apply list_elem_of_here.
  - apply IH; [|done]. intros c Hc. apply Hdisj. by apply list_elem_of_further.
Qed.

(** A replacement makes no occurrence of a pattern that shares no character
    with the string put in. *)
Lemma isin_replace_from (p s old new : str) (skip : nat) :
  new ≠ [] → (∀ c, c ∈ new → c ∉ p) →
  isin p (replace_from skip s old new) = true → isin p s = true.
Proof.
  intros Hnew Hdisj. revert skip. induction s as [|c s IH]; intros skip Hin; [done|].
  destruct skip as [|k]; cbn [replace_from] in Hin.
  - case_bool_decide as Hpre.
    + apply isin_app_disjoint in Hin as [->|Hin]; [apply isin_nil| |done].
      apply isin_cons. by eapply IH.
    + cbn [isin] in Hin. apply orb_true_iff in Hin as [Hp|Hin].
      * apply bool_decide_eq_true in Hp. apply isin_prefix.
        apply (prefix_replace_from p (c :: s) old new Hnew Hdisj).
        cbn [replace_from]. by rewrite bool_decide_eq_false_2.
      * apply isin_cons. by eapply IH.
  - apply isin_cons. by eapply IH.
Qed.

(** After the replacement the pattern occurs no more, when it shares no
    character with the string put in. *)
Lemma isin_replace_self (s old new : str) :
  old ≠ [] → new ≠ [] → (∀ c, c ∈ new → c ∉ old) →
  isin old (replace_from 0 s old new) = false.
Proof.
  intros Hold Hnew Hdisj.
  remember (length s) as n eqn:Hn. revert s Hn.
  induction n as [n IH] using lt_wf_ind. intros s Hn.
  destruct s as [|c s].
  { cbn [replace_from isin]. rewrite bool_decide_eq_false_2; [done|].
    intros Hp. by apply prefix_nil_inv in Hp. }
  cbn [replace_from]. case_bool_decide as Hpre.
  - rewrite replace_from_drop.
    assert (Hshort : length (drop (length old - 1) s) < n)
      by (rewrite length_drop; subst n; cbn [length]; lia).
    pose proof (IH _ Hshort _ eq_refl) as IH'.
    destruct (isin old (new ++ _)) eqn:Hin; [|done].
    apply isin_app_disjoint in Hin as [->|Hin]; [done| |done]. congruence.
  - assert (Hshort : length s < n) by (subst n; cbn [length]; lia).
    pose proof (IH _ Hshort s eq_refl) as IH'.
    cbn [isin]. rewrite IH', orb_false_r. apply bool_decide_eq_false_2.
    intros Hp. apply Hpre.
    apply (prefix_replace_from old (c :: s) old new Hnew Hdisj).
    cbn [replace_from]. by rewrite bool_decide_eq_false_2.
Qed.

(** ** Stable sorting decides the order of application *)
Section sorted_unique.
Context {A : Type} (key : A → Z).

Lemma filter_key_nil (l : list A) :
  (∀ k, filter (λ y, key y = k) l = []) → l = [].
Proof.
  destruct l as [|x l]; [done|]. intros Hf. specialize (Hf (key x)).
  by rewrite filter_cons_True in Hf.
Qed.

(** Two sorted lists with the same elements of every key, in the same
    order, are one list. *)
Lemma sorted_unique (l1 l2 : list A) :
  StronglySorted (λ a b, (key a ≤ key b)%Z) l1 →
  StronglySorted (λ a b, (key a ≤ key b)%Z) l2 →
  (∀ k, filter (λ y, key y = k) l1 = filter (λ y, key y = k) l2) →
  l1 = l2.
Proof.
  intros Hs1. revert l2. induction Hs1 as [|x l1 Hs1 IH Hx]; intros l2 Hs2 Hf.
  { symmetry. apply filter_key_nil. intros k. by rewrite <- Hf. }
  destruct Hs2 as [|y l2 Hs2 Hy].
  { specialize (Hf (key x)). by rewrite filter_cons_True in Hf. }
  assert (Hyx : (key y ≤ key x)%Z).
  { assert (Hin : x ∈ filter (λ z, key z = key x) (y :: l2)).
    { rewrite <- Hf, filter_cons_True by done. apply list_elem_of_here. }
    apply list_elem_of_filter in Hin as [_ Hin].
    apply elem_of_cons in Hin as [->|Hin]; [lia|].
    by apply (proj1 (Forall_forall _ _) Hy). }
  assert (Hxy : (key x ≤ key y)%Z).
  { assert (Hin : y ∈ filter (λ z, key z = key y) (x :: l1)).
    { rewrite Hf, filter_cons_True by done. apply list_elem_of_here. }
    apply list_elem_of_filter in Hin as [_ Hin].
    apply elem_of_cons in Hin as [->|Hin]; [lia|].
    by apply (proj1 (Forall_forall _ _) Hx). }
  assert (Hkey : key x = key y) by lia.
  pose proof (Hf (key x)) as Hhead.
  rewrite filter_cons_True in Hhead by done.
  rewrite (filter_cons_True _ y) in Hhead by done.
  injection Hhead as <- Htail. f_equal. apply IH; [done|].
  intros k. specialize (Hf k). rewrite !filter_cons in Hf.
  case_decide; [by injection Hf|done].
Qed.

Lemma sorted_determined (l1 l2 : list A) :
  (∀ k, filter (λ y, key y = k) l1 = filter (λ y, key y = k) l2) →
  sorted key l1 = sorted key l2.
Proof.
  intros Hf. apply sorted_unique; [apply sorted_sorted..|].
  intros k. by rewrite !sorted_stable.
Qed.

Lemma insert_by_snoc (x r : A) (l : list A) :
  (key x ≤ key r)%Z → insert_by key x (l ++ [r]) = insert_by key x l ++ [r].
Proof.
  intros Hle. induction l as [|y l IH]; cbn [app insert_by].
  - by rewrite bool_decide_eq_true_2.
  - case_bool_decide; [done|]. by rewrite IH.
Qed.

(** An element put last that has the largest key stays last. *)
Lemma sorted_snoc_last (l : list A) (r : A) :
  Forall (λ x, (key x ≤ key r)%Z) l → sorted key (l ++ [r]) = sorted key l ++ [r].
Proof.
  induction 1 as [|x l Hx _ IH]; [done|].
  cbn [app sorted foldr]. fold (sorted key (l ++ [r])). fold (sorted key l).
  by rewrite IH, insert_by_snoc.
Qed.

(** An element put last that has a key smaller than all the others comes
    first. *)
Lemma sorted_snoc_first (l : list A) (r : A) :
  Forall (λ x, (key r < key x)%Z) l → sorted key (l ++ [r]) = r :: sorted key l.
Proof.
  induction 1 as [|x l Hx _ IH]; [done|].
  cbn [app sorted foldr]. fold (sorted key (l ++ [r])). fold (sorted key l).
  rewrite IH. cbn [insert_by]. by rewrite bool_decide_eq_false_2 by lia.
Qed.
End sorted_unique.

Lemma filter_none {A : Type} (P : A → Prop) `{∀ x, Decision (P x)} (l : list A) :
  (∀ x, ¬ P x) → filter P l = [].
Proof.
  intros Hno. induction l as [|x l IH]; [done|].
  by rewrite filter_cons_False by apply Hno.
Qed.

Lemma filter_neg_len (rules rules' : list rule) :
  (∀ k : nat, filter (λ r : rule, length r.1 = k) rules =
              filter (λ r : rule, length r.1 = k) rules') →
  ∀ z : Z, filter (λ r : rule, neg_len r = z) rules =
           filter (λ r : rule, neg_len r = z) rules'.
Proof.
  intros Hf z. destruct (decide (z ≤ 0)%Z) as [Hz|Hz].
  - rewrite !(list_filter_iff (λ r : rule, neg_len r = z)
                (λ r : rule, length r.1 = Z.to_nat (- z)))
      by (intros r; unfold neg_len; lia).
    apply Hf.
  - by rewrite !filter_none by (intros r; unfold neg_len; lia).
Qed.

Lemma filter_length_NoDup {A : Type} (f : A → nat) (k : nat) (l : list A) :
  NoDup (f <$> l) → length (filter (λ x, f x = k) l) ≤ 1.
Proof.
  induction l as [|x l IH]; [cbn; lia|].
  rewrite fmap_cons. intros [Hx Hl]%NoDup_cons. specialize (IH Hl).
  rewrite filter_cons. case_decide as Hk; [|done].
  destruct (filter (λ x, f x = k) l) as [|y rest] eqn:Hfl; [cbn; lia|].
  exfalso. apply Hx.
  assert (Hy : y ∈ filter (λ x, f x = k) l) by (rewrite Hfl; apply list_elem_of_here).
  apply list_elem_of_filter in Hy as [Hfy Hy].
  rewrite Hk, <- Hfy. by apply list_elem_of_fmap_2.
Qed.

Lemma filter_length_perm (rules rules' : list rule) :
  rules ≡ₚ rules' → NoDup ((λ r : rule, length r.1) <$> rules) →
  ∀ k : nat, filter (λ r : rule, length r.1 = k) rules =
             filter (λ r : rule, length r.1 = k) rules'.
Proof.
  intros Hperm Hnd k.
  pose proof (filter_length_NoDup (λ r : rule, length r.1) k rules Hnd) as Hlen.
  assert (Hp : filter (λ r : rule, length r.1 = k) rules ≡ₚ
               filter (λ r : rule, length r.1 = k) rules') by (by rewrite Hperm).
  destruct (filter (λ r : rule, length r.1 = k) rules) as [|x [|y rest]].
  - by apply Permutation_nil_l in Hp.
  - by apply Permutation_singleton_l in Hp.
  - cbn in Hlen. lia.
Qed.

(** X8: the order of the rule list matters only among rules of one pattern
    length. Two rule lists that hold, for every length, the same rules of
    that length in the same order give the same result, in the user override
    pass and in the engine of the built-in rules; so do two lists that are
    permutations of one another when no two rules have patterns of one
    length. *)
Theorem rule_order_irrelevant `{Unicode} (rules rules' : list rule) (text : str) :
  (∀ k : nat, filter (λ r : rule, length r.1 = k) rules =
              filter (λ r : rule, length r.1 = k) rules') ∨
  (rules ≡ₚ rules' ∧ NoDup ((λ r : rule, length r.1) <$> rules)) →
  apply_custom_mappings text rules = apply_custom_mappings text rules' ∧
  substitute text rules = substitute text rules'.
Proof.
  intros Hsame.
  assert (Hf : ∀ k : nat, filter (λ r : rule, length r.1 = k) rules =
                          filter (λ r : rule, length r.1 = k) rules').
  { destruct Hsame as [Hf|[Hperm Hnd]]; [done|]. by apply filter_length_perm. }
  assert (Hsorted : sorted neg_len rules = sorted neg_len rules')
    by (by apply sorted_determined, filter_neg_len).
  by rewrite !apply_custom_mappings_fold, !substitute_fold, Hsorted.
Qed.

(** the rules a -> x and bc -> y, in both orders *)
Lemma rule_order_irrelevant_witness :
  apply_custom_mappings [0x61%N; 0x62%N; 0x63%N]
    [ ([0x61%N], [0x78%N]); ([0x62%N; 0x63%N], [0x79%N]) ] =
  apply_custom_mappings [0x61%N; 0x62%N; 0x63%N]
    [ ([0x62%N; 0x63%N], [0x79%N]); ([0x61%N], [0x78%N]) ].
Proof.
  apply (@rule_order_irrelevant Latin.table). right. split.
  - apply Permutation_swap.
  - apply (bool_decide_unpack _). by vm_compute.
Defined.

(** ** A rule added to the list *)

(** X9: a rule put at the end of the rule list, as the mappings editor adds
    it, is applied last when no rule of the list has a shorter pattern, and
    first when its pattern is longer than that of every rule of the list. *)
Theorem added_rule_position (rules : list rule) (s t text : str) :
  (Forall (λ r : rule, length s ≤ length r.1) rules →
     apply_custom_mappings text (rules ++ [(s, t)]) =
     replace (apply_custom_mappings text rules) s t) ∧
  (Forall (λ r : rule, length r.1 < length s) rules →
     apply_custom_mappings text (rules ++ [(s, t)]) =
     apply_custom_mappings (replace text s t) rules).
Proof.
  split; intros Hlen; rewrite !apply_custom_mappings_fold.
  - rewrite sorted_snoc_last, foldl_app; [done|].
    eapply Forall_impl; [exact Hlen|]. intros r Hr. unfold neg_len. cbn [fst] in *. lia.
  - rewrite sorted_snoc_first; [done|].
    eapply Forall_impl; [exact Hlen|]. intros r Hr. unfold neg_len. cbn [fst] in *. lia.
Qed.

(** the rule b -> c added to the rule ab -> b, and the rule abc -> d *)
Lemma added_rule_position_witness :
  apply_custom_mappings [0x61%N; 0x62%N]
    ([ ([0x61%N; 0x62%N], [0x62%N]) ] ++ [ ([0x62%N], [0x63%N]) ]) = [0x63%N] ∧
  apply_custom_mappings [0x61%N; 0x62%N; 0x63%N]
    ([ ([0x61%N; 0x62%N], [0x62%N]) ] ++ [ ([0x61%N; 0x62%N; 0x63%N], [0x64%N]) ]) =
    [0x64%N].
Proof.
  split.
  - destruct (added_rule_position [ ([0x61%N; 0x62%N], [0x62%N]) ]
                [0x62%N] [0x63%N] [0x61%N; 0x62%N]) as [Hlast _].
    rewrite Hlast; [by vm_compute|]. repeat constructor.
  - destruct (added_rule_position [ ([0x61%N; 0x62%N], [0x62%N]) ]
                [0x61%N; 0x62%N; 0x63%N] [0x64%N] [0x61%N; 0x62%N; 0x63%N]) as [_ Hfirst].
    rewrite Hfirst; [by vm_compute|]. repeat constructor.
Defined.

(** ** The built-in rules as literal replacements *)

Lemma replace_preserve_case_passes `{Unicode} (s : str) (r : rule) :
  replace_preserve_case s r.1 r.2 = foldl (λ out p, replace out p.1 p.2) s (case_passes r).
Proof.
  unfold replace_preserve_case, case_passes. destruct r as [src tgt]. cbn [fst snd].
  destruct src as [|c0 src]; [done|]. by destruct (isalpha c0).
Qed.

Lemma substitute_passes `{Unicode} (text : str) (mappings : list rule) :
  substitute text mappings =
  foldl (λ out p, replace out p.1 p.2) text
        (concat (map case_passes (sorted neg_len mappings))).
Proof.
  rewrite substitute_fold. generalize (sorted neg_len mappings). intros l. revert text.
  induction l as [|r l IH]; intros text; [done|].
  cbn [foldl map concat]. by rewrite foldl_app, IH, replace_preserve_case_passes.
Qed.

Lemma apply_roman_mappings_passes (text : str) :
  @apply_roman_mappings Latin.table text =
  foldl (λ out p, replace out p.1 p.2) text roman_passes.
Proof. apply substitute_passes. Qed.

Lemma pass_ok_cases (p : rule) :
  pass_ok p = true →
  p.1 = p.2 ∨
  (p.1 ≠ [] ∧ p.2 ≠ [] ∧ (∀ c, c ∈ p.1 → ascii c = true) ∧ (∀ c, c ∈ p.2 → ascii c = false)).
Proof.
  unfold pass_ok. intros [Hid|Hok]%orb_true_iff; [left; by apply bool_decide_eq_true in Hid|].
  right. repeat (apply andb_true_iff in Hok as [Hok ?]).
  apply negb_true_iff, bool_decide_eq_false in Hok.
  match goal with H : negb _ = true |- _ => apply negb_true_iff, bool_decide_eq_false in H end.
  do 2 (split; [done|]). split; intros c Hc%list_elem_of_In.
  - by eapply (proj1 (forallb_forall _ _)); [|exact Hc].
  - apply negb_true_iff. by eapply (proj1 (forallb_forall (λ c, negb (ascii c)) _)); [|exact Hc].
Qed.

(** A pass puts in no occurrence of an ASCII pattern that was not there. *)
Lemma pass_keeps_absent (q : rule) (p s : str) :
  pass_ok q = true → (∀ c, c ∈ p → ascii c = true) →
  isin p s = false → isin p (replace s q.1 q.2) = false.
Proof.
  intros [Hid|(Hq1 & Hq2 & _ & Hout)]%pass_ok_cases Hp Hs.
  - by rewrite Hid, replace_same.
  - rewrite replace_nonempty by done.
    destruct (isin p (replace_from 0 s q.1 q.2)) eqn:Hin; [|done].
    apply isin_replace_from in Hin; [congruence|done|].
    intros c Hc Hcp. specialize (Hout c Hc). specialize (Hp c Hcp). congruence.
Qed.

(** After a pass its pattern occurs no more, unless the pass changes
    nothing. *)
Lemma pass_removes (q : rule) (s : str) :
  pass_ok q = true → q.1 = q.2 ∨ isin q.1 (replace s q.1 q.2) = false.
Proof.
  intros [Hid|(Hq1 & Hq2 & Hin & Hout)]%pass_ok_cases; [by left|right].
  rewrite replace_nonempty by done. apply isin_replace_self; [done..|].
  intros c Hc Hcp. specialize (Hout c Hc). specialize (Hin c Hcp). congruence.
Qed.

Lemma passes_settle (ps : list rule) : ∀ (dn : list rule) (s : str),
  forallb pass_ok ps = true →
  Forall (λ p : rule, pass_ok p = true ∧ (p.1 = p.2 ∨ isin p.1 s = false)) dn →
  Forall (λ p : rule, p.1 = p.2 ∨
            isin p.1 (foldl (λ out p, replace out p.1 p.2) s ps) = false) (dn ++ ps).
Proof.
  induction ps as [|q ps IH]; intros dn s Hok Hdn.
  - rewrite app_nil_r. eapply Forall_impl; [exact Hdn|]. by intros p [_ ?].
  - cbn [forallb] in Hok. apply andb_true_iff in Hok as [Hq Hok].
    cbn [foldl]. rewrite (cons_middle q dn ps), app_assoc. apply IH; [done|].
    apply Forall_app. split.
    2: { constructor; [|constructor]. split; [done|]. by apply pass_removes. }
    eapply Forall_impl; [exact Hdn|]. intros p [Hp [Hid|Habs]]; (split; [done|]); [by left|].
    destruct (pass_ok_cases p Hp) as [Hid|(_ & _ & Hin & _)]; [by left|right].
    by apply pass_keeps_absent.
Qed.

Lemma passes_fixed (ps : list rule) (s : str) :
  Forall (λ p : rule, p.1 = p.2 ∨ isin p.1 s = false) ps →
  foldl (λ out p, replace out p.1 p.2) s ps = s.
Proof.
  induction 1 as [|p ps Hp _ IH]; [done|]. cbn [foldl].
  destruct Hp as [->|Hp]; [by rewrite replace_same|by rewrite replace_notin].
Qed.

Lemma passes_length (ps : list rule) : ∀ s : str,
  forallb (λ p : rule, length p.2 <=? length p.1) ps = true →
  length (foldl (λ out p, replace out p.1 p.2) s ps) ≤ length s.
Proof.
  induction ps as [|p ps IH]; intros s Hok; [done|].
  cbn [forallb] in Hok. apply andb_true_iff in Hok as [Hp Hok]. apply Nat.leb_le in Hp.
  cbn [foldl]. etrans; [by apply IH|]. by apply replace_length.
Qed.

(** ** The built-in rules *)

(** X10: the normalization of Latin input is idempotent: applied to its own
    result it changes nothing. The replacements of the built-in rules hold
    no ASCII character, so they make no occurrence of a pattern, and the
    rule for "ch" replaces it by itself. *)
Theorem apply_roman_mappings_idempotent (text : str) :
  @apply_roman_mappings Latin.table (@apply_roman_mappings Latin.table text) =
  @apply_roman_mappings Latin.table text.
Proof.
  rewrite (apply_roman_mappings_passes (apply_roman_mappings text)).
  apply passes_fixed. rewrite apply_roman_mappings_passes.
  apply (passes_settle roman_passes [] text); [by vm_compute|constructor].
Qed.

(** X11: the normalization of Latin input never makes a text longer, in code
    points: every built-in rule puts at most as many characters as its
    pattern has, in each of its case forms. *)
Theorem apply_roman_mappings_length (text : str) :
  length (@apply_roman_mappings Latin.table text) ≤ length text.
Proof. rewrite apply_roman_mappings_passes. apply passes_length. by vm_compute. Qed.

(** X12: the last built-in rule, "ch" to "ch", changes no text in any of its
    case forms, and the normalization is what the thirteen rules before it
    do. *)
Theorem roman_mappings_ch_inert (text : str) :
  @replace_preserve_case Latin.table text [0x63%N; 0x68%N] [0x63%N; 0x68%N] = text ∧
  @apply_roman_mappings Latin.table text =
  @substitute Latin.table text (take 13 ROMAN_MAPPINGS).
Proof.
  assert (Hch : ∀ s, @replace_preserve_case Latin.table s [0x63%N; 0x68%N] [0x63%N; 0x68%N] = s).
  { intros s. rewrite (replace_preserve_case_passes s ([0x63%N; 0x68%N], [0x63%N; 0x68%N])).
    apply passes_fixed. repeat constructor; by left. }
  split; [apply Hch|].
  unfold apply_roman_mappings. rewrite !substitute_fold.
  assert (Hlist : sorted neg_len ROMAN_MAPPINGS =
                  sorted neg_len (take 13 ROMAN_MAPPINGS) ++
                  [([0x63%N; 0x68%N], [0x63%N; 0x68%N])]) by (by vm_compute).
  rewrite Hlist, foldl_app. cbn [foldl fst snd]. apply Hch.
Qed.

(** X13: the normalization of Latin input leaves a text without a basic
    Latin letter as it is: every pattern begins with one, in each of its case
    forms. Digits, spaces, punctuation, the letters with diacritics and the
    Tamil script go through unchanged. *)
Theorem apply_roman_mappings_no_letter (text : str) :
  Forall (λ c, ascii_letter c = false) text →
  @apply_roman_mappings Latin.table text = text.
Proof.
  intros Htext. rewrite apply_roman_mappings_passes. apply passes_fixed.
  assert (Hhead : forallb (λ p : rule, match p.1 with
                                       | c :: _ => ascii_letter c
                                       | [] => false
                                       end) roman_passes = true) by (by vm_compute).
  apply Forall_forall. intros p Hp%list_elem_of_In. right.
  pose proof (proj1 (forallb_forall _ _) Hhead p Hp) as Hc.
  destruct p as [[|c src] tgt]; [done|]. cbn [fst] in *.
  apply isin_first_absent. intros Hin.
  pose proof (proj1 (Forall_forall _ _) Htext c Hin) as Hno. cbn in Hno. congruence.
Qed.

(** "12. " followed by the Tamil letter KA *)
Lemma apply_roman_mappings_no_letter_witness :
  @apply_roman_mappings Latin.table [0x31%N; 0x32%N; 0x2E%N; 0x20%N; 0x0B95%N] =
  [0x31%N; 0x32%N; 0x2E%N; 0x20%N; 0x0B95%N].
Proof.
  apply apply_roman_mappings_no_letter.
  repeat (constructor; [by vm_compute|]). constructor.
Defined.

(** The case forms that the engine asks of the interpreter are those of the
    strings of [ROMAN_MAPPINGS]: a character database that gives them the
    forms of the fragment gives the same normalization on every text. *)
Lemma apply_roman_mappings_table (U : Unicode) (text : str) :
  map (@case_passes U) ROMAN_MAPPINGS = map (@case_passes Latin.table) ROMAN_MAPPINGS →
  @apply_roman_mappings U text = @apply_roman_mappings Latin.table text.
Proof.
  intros Hforms. unfold apply_roman_mappings. rewrite !substitute_passes.
  by rewrite sorted_roman_mappings, Hforms.
Qed.

(** ** The case forms of a pattern *)

(** X14: for a rule whose pattern [P] begins with a letter, the pattern as it
    is written becomes the replacement [R] as it is written, and the pattern
    capitalized becomes the replacement capitalized, where the other case
    forms of the pattern do not occur in the string put in. *)
Theorem case_forms_replaced `{Unicode} (P R P' : str) (c : codepoint) :
  P = c :: P' → isalpha c = true →
  (isin (capitalize P) R = false → isin (upper P) R = false →
     replace_preserve_case P P R = R) ∧
  (isin P (capitalize P) = false → isin (upper P) (capitalize R) = false →
     replace_preserve_case (capitalize P) P R = capitalize R).
Proof.
  intros -> Hc. unfold replace_preserve_case. rewrite Hc. cbn zeta. split.
  - intros H1 H2. rewrite replace_self by done.
    by rewrite (replace_notin R (capitalize _)), replace_notin.
  - intros H1 H2. rewrite (replace_notin (capitalize _) (c :: P')) by done.
    rewrite replace_self by (by apply capitalize_nonempty).
    by rewrite replace_notin.
Qed.

(** "Aa" under the rule aa -> a with macron *)
Lemma case_forms_replaced_witness :
  @replace_preserve_case Latin.table [0x41%N; 0x61%N] [0x61%N; 0x61%N] [0x0101%N] =
  [0x0100%N].
Proof.
  destruct (@case_forms_replaced Latin.table [0x61%N; 0x61%N] [0x0101%N] [0x61%N] 0x61%N
              eq_refl eq_refl) as [_ Htitle].
  apply Htitle; by vm_compute.
Defined.

(** ** The tables *)

(** As [entries], for a hypothesis whose value is known: the entries with
    another value are set aside. *)
Ltac entries_of_value H :=
  match type of H with
  | ?d !! ?k = Some ?v =>
    let l := eval vm_compute in (map_to_list d) in
    apply (lookup_elem_of d l k v) in H; [|vm_compute; reflexivity];
    repeat (apply elem_of_cons in H as [H|H]; [try (by simplify_eq); simplify_eq|]);
    try (by apply elem_of_nil in H)
  end.

(** X15: in the Sanskrit mode no two consonants have the same romanization;
    in the standard mode two consonants with the same romanization are
    romanized "s", as SA and SHA both are. *)
Theorem consonant_romanization_injective :
  (∀ C1 C2 B : str, build_consonant_map true !! C1 = Some B →
     build_consonant_map true !! C2 = Some B → C1 = C2) ∧
  (∀ C1 C2 B : str, build_consonant_map false !! C1 = Some B →
     build_consonant_map false !! C2 = Some B → C1 = C2 ∨ B = [0x73%N]) ∧
  build_consonant_map false !! [0x0BB8%N] = Some [0x73%N] ∧
  build_consonant_map false !! [0x0BB6%N] = Some [0x73%N].
Proof.
  split; [|split; [|by vm_compute]].
  - intros C1 C2 B H1 H2. entries H1; entries_of_value H2; done.
  - intros C1 C2 B H1 H2. entries H1; entries_of_value H2; (by left) || (by right).
Qed.

(** SA and SHA in the standard mode *)
Lemma consonant_romanization_injective_witness :
  [0x0BB8%N] = [0x0BB6%N] ∨ [0x73%N] = [0x73%N].
Proof.
  destruct consonant_romanization_injective as (_ & Hstd & _).
  apply (Hstd [0x0BB8%N] [0x0BB6%N] [0x73%N]); by vm_compute.
Defined.

(** X16: a vowel sign is romanized as the independent vowel of its sound,
    which stands 0x38 code points before it in the block; and every
    independent vowel but A, the inherent vowel, has its sign. *)
Theorem vowel_tables_agree :
  (∀ S V : str, TAMIL_VOWEL_SIGNS !! S = Some V →
     ∃ c : codepoint, S = [c] ∧ TAMIL_INDEPENDENT_VOWELS !! [(c - 0x38)%N] = Some V) ∧
  (∀ I V : str, TAMIL_INDEPENDENT_VOWELS !! I = Some V →
     I = [0x0B85%N] ∨
     ∃ c : codepoint, I = [c] ∧ TAMIL_VOWEL_SIGNS !! [(c + 0x38)%N] = Some V).
Proof.
  split.
  - intros S V HS. entries HS; eexists; (split; [reflexivity|by vm_compute]).
  - intros I V HI. entries HI;
      first [ by left | right; eexists; (split; [reflexivity|by vm_compute]) ].
Qed.

(** the vowel sign AA *)
Lemma vowel_tables_agree_witness :
  ∃ c : codepoint, [0x0BBE%N] = [c] ∧
    TAMIL_INDEPENDENT_VOWELS !! [(c - 0x38)%N] = Some [0x0101%N].
Proof.
  destruct vowel_tables_agree as [Hsign _]. apply Hsign. by vm_compute.
Defined.
